(** * flint: entity queries and the RDL/HTML translator

    A shallow embedding of the query layer of flint
    ([flint/interface.py], [flint/entities/solars.py],
    [flint/entities/universe.py]) and the properties its
    specification states about it.

    Python values are modelled as follows.
    - [str] is a sequence of code points.  Nicknames, which are only
      compared and looked up, are Rocq [string]s; the text the markup
      translator rewrites is a [list N] of code points, so that every
      Python string is covered.
    - [dict] is an association list in insertion order: assigning to
      an existing key keeps the key's position and replaces the value.
    - an exception is the [inl] of a sum; [None] is the [None] of an
      option.
    - an attribute that a method assigns is a field of a value that
      the method returns again (explicit state passing). *)

From Stdlib Require Import List Bool Arith ZArith NArith Lia String Ascii.
From Stdlib Require Import Permutation.
From Stdlib Require Import PrimFloat.
Import ListNotations.

Set Implicit Arguments.

(** ** Python exceptions and results *)

Inductive exn : Type :=
| KeyError
| IndexError
| AttributeError.

Definition result (A : Type) : Type := (exn + A)%type.

Definition raise {A : Type} (e : exn) : result A := inl e.
Definition ret {A : Type} (a : A) : result A := inr a.

Definition bind {A B : Type} (m : result A) (k : A -> result B) : result B :=
  match m with
  | inl e => inl e
  | inr a => k a
  end.

Notation "x <- m ;; k" := (bind m (fun x => k))
  (at level 61, m at next level, right associativity).

(** A comprehension or a [for] loop that builds a list: the first
    exception ends it. *)
Fixpoint mapM {A B : Type} (f : A -> result B) (l : list A) : result (list B) :=
  match l with
  | [] => ret []
  | a :: t => b <- f a ;; bs <- mapM f t ;; ret (b :: bs)
  end.

(** ** Python dictionaries, in insertion order *)

Section Dict.
Variables K V : Type.
Variable keq : K -> K -> bool.

Fixpoint dict_get (d : list (K * V)) (k : K) : option V :=
  match d with
  | [] => None
  | (k', v) :: t => if keq k' k then Some v else dict_get t k
  end.

(** [d[k] = v] *)
Fixpoint dict_set (d : list (K * V)) (k : K) (v : V) : list (K * V) :=
  match d with
  | [] => [(k, v)]
  | (k', v') :: t =>
      if keq k' k then (k', v) :: t else (k', v') :: dict_set t k v
  end.

(** [dict(pairs)], and a dict comprehension over [pairs] *)
Definition dict_of (pairs : list (K * V)) : list (K * V) :=
  fold_left (fun d kv => dict_set d (fst kv) (snd kv)) pairs [].

(** [d[k]], which raises [KeyError] on a missing key *)
Definition dict_getitem (d : list (K * V)) (k : K) : result V :=
  match dict_get d k with
  | Some v => ret v
  | None => raise KeyError
  end.
End Dict.

(** ** The markup translator ([flint/interface.py]) *)

Module Interface.

(** A Python [str]: its code points. *)
Definition pystr : Type := list N.

(** The code points of a literal.  The table's literals contain the
    double quote character; it is written as an apostrophe here (no
    literal of the table contains an apostrophe) and mapped back. *)
Definition lit (s : string) : pystr :=
  map (fun a => let n := N_of_ascii a in if N.eqb n 39 then 34%N else n)
      (list_ascii_of_string s).

Fixpoint starts_with (p s : pystr) : bool :=
  match p, s with
  | [], _ => true
  | _ :: _, [] => false
  | a :: p', b :: s' => N.eqb a b && starts_with p' s'
  end.

(** [p in s] *)
Fixpoint contains (p s : pystr) : bool :=
  match s with
  | [] => starts_with p []
  | _ :: t => starts_with p s || contains p t
  end.

(** [str.replace] for a non-empty [old]: the occurrences are found
    from the left and do not overlap.  [skip] counts the code points
    of a found occurrence that are still to be passed over. *)
Fixpoint replace_scan (old new : pystr) (skip : nat) (s : pystr) : pystr :=
  match s with
  | [] => []
  | c :: t =>
      match skip with
      | S k => replace_scan old new k t
      | O =>
          if starts_with old s
          then new ++ replace_scan old new (pred (List.length old)) t
          else c :: replace_scan old new 0 t
      end
  end.

(** [s.replace(old, new)].  With an empty [old], Python puts [new]
    before every code point and at the end. *)
Definition replace (old new s : pystr) : pystr :=
  match old with
  | [] => new ++ flat_map (fun c => c :: new) s
  | _ :: _ => replace_scan old new 0 s
  end.

(** The table, in the order of the dict literal: (RDL tag, HTML tag). *)
Definition RDL_TO_HTML : list (pystr * pystr) :=
  [ (lit "<TRA data='1' mask='1' def='-2'/>", lit "<b>");
    (lit "<TRA bold='true'/>", lit "<b>");
    (lit "<TRA data='0' mask='1' def='-1'/>", lit "</b>");
    (lit "<TRA data='0x00000001' mask='-1' def='-2'/>", lit "<b>");
    (lit "<TRA data='0x00000000' mask='-1' def='-1'/>", lit "</b>");
    (lit "<TRA bold='default'/>", lit "</b>");
    (lit "<TRA data='2' mask='3' def='-3'/>", lit "<i>");
    (lit "<TRA data='0' mask='3' def='-1'/>", lit "</i>");
    (lit "<TRA data='98' mask='-29' def='-3'/>", lit "<i>");
    (lit "<TRA data='96' mask='-29' def='-1'/>", lit "</i>");
    (lit "<TRA data='2' mask='2' def='-3'/>", lit "<i>");
    (lit "<TRA data='0' mask='2' def='-1'/>", lit "</i>");
    (lit "<TRA data='5' mask='5' def='-6'/>", lit "<b><u>");
    (lit "<TRA data='0' mask='5' def='-1'/>", lit "</b></u>");
    (lit "<TRA data='5' mask='7' def='-6'/>", lit "<b><u>");
    (lit "<TRA data='0' mask='7' def='-1'/>", lit "</b></u>");
    (lit "<TRA color='default' bold='default'/>", lit "</font></b>");
    (lit "<TRA data='65280' mask='-32' def='31'/>", lit "<font color='red'>");
    (lit "<TRA color='#ff0000' bold='true'/>", lit "<font color='red'><b>");
    (lit "<TRA data='96' mask='-32' def='-1'/>", lit "</font>");
    (lit "<TRA color='default'/>", lit "</font>");
    (lit "<TRA data='65281' mask='-31' def='30'/>", lit "<b><font color='red'>");
    (lit "<TRA data='96' mask='-31' def='-1'/>", lit "</b></font>");
    (lit "<TRA data='-16777216' mask='-32' def='31'/>", lit "<font color='blue'>");
    (lit "<TRA color='white' bold='default'/>", lit "</b><font color='white>");
    (lit "<PARA/>", lit "<p>");
    (lit "</PARA>", lit "</p>");
    (lit "<JUST loc='left'/>", lit "<p align='left'>");
    (lit "<JUST loc='center'/>", lit "<p align='center'>");
    ([160%N], lit "&nbsp;");
    (lit "<RDL>", []);
    (lit "</RDL>", []);
    (lit "<TEXT>", []);
    (lit "</TEXT>", []);
    (lit "<PUSH/>", []);
    (lit "<POP/>", []);
    (lit "<?xml version='1.0' encoding='UTF-16'?>", []) ].

Definition rdl_to_html (rdl : pystr) : pystr :=
  fold_left (fun result '(rdl_tag, html_tag) => replace rdl_tag html_tag result)
            RDL_TO_HTML rdl.

Definition html_to_rdl (html : pystr) : pystr :=
  fold_left (fun result '(rdl_tag, html_tag) => replace html_tag rdl_tag result)
            RDL_TO_HTML html.


(** *** Parts of the table, for the properties below *)

Definition reverse_step (result : pystr) (entry : pystr * pystr) : pystr :=
  let '(rdl_tag, html_tag) := entry in replace html_tag rdl_tag result.

(** The last key of the table. *)
Definition xml_header : pystr := lit "<?xml version='1.0' encoding='UTF-16'?>".

(** The reverse translation up to the last entry: the thirty entries
    with a non-empty HTML tag, then the insertions that the entries
    with an empty one make, the XML header's excepted. *)
Definition reverse_body (html : pystr) : pystr :=
  replace [] (lit "<POP/>")
    (replace [] (lit "<PUSH/>")
       (replace [] (lit "</TEXT>")
          (replace [] (lit "<TEXT>")
             (replace [] (lit "</RDL>")
                (replace [] (lit "<RDL>")
                   (fold_left reverse_step (firstn 30 RDL_TO_HTML) html)))))).

(** Every [<] of [s] that has a successor is followed by [?] or [<]. *)
Fixpoint lt_followed (s : pystr) : bool :=
  match s with
  | [] => true
  | x :: t =>
      match t with
      | [] => true
      | y :: _ => negb (N.eqb x 60) || N.eqb y 63 || N.eqb y 60
      end && lt_followed t
  end.

(** No code point of [s] is the non-breaking space. *)
Definition no_nbsp (s : pystr) : bool :=
  forallb (fun c => negb (N.eqb c 160)) s.

(** No code point of [s] is the non-breaking space or [&]. *)
Definition plain_text (s : pystr) : bool :=
  forallb (fun c => negb (N.eqb c 160) && negb (N.eqb c 38)) s.

(** A key that is the non-breaking space, or starts with [<] and
    then neither [?] nor [<]. *)
Definition plain_key (p : pystr) : bool :=
  match p with
  | [c] => N.eqb c 160
  | x :: b :: _ => N.eqb x 60 && negb (N.eqb b 63) && negb (N.eqb b 60)
  | [] => false
  end.

End Interface.

(** ** Entities ([flint/entities/__init__.py]) *)

(** Modelled from the spec: the [Entity] base class, "anything with a
    unique symbolic name (nickname) within its kind".  The nickname is
    the identity of an entity: two entities of a kind are equal, as
    dict keys and for [==], when their nicknames are. *)
Class Entity (T : Type) : Type := nickname : T -> string.

Definition entity_eqb {T : Type} `{Entity T} (a b : T) : bool :=
  String.eqb (nickname a) (nickname b).

(** Modelled from the spec: [EntitySet], "an ordered collection of
    entities ... supporting lookup by nickname, filtering by concrete
    subtype, and unique-by-attribute lookup (returns the single entity
    matching a predicate, or absent if zero or ambiguous)".  The set
    is the list of its entities in iteration order; building one from
    an iterable keeps one entity per nickname, as the dict behind it
    does. *)
Module EntitySet.
Definition t (T : Type) : Type := list T.

Section Ops.
Context {T : Type} `{Entity T}.

Fixpoint add (s : t T) (e : T) : t T :=
  match s with
  | [] => [e]
  | e' :: r => if entity_eqb e' e then e :: r else e' :: add r e
  end.

(** [EntitySet(iterable)] *)
Definition make (l : list T) : t T := fold_left add l [].

(** [s.get(nick)]: the entity, or [None] *)
Definition get (s : t T) (nick : string) : option T :=
  find (fun e => String.eqb (nickname e) nick) s.

(** [s[nick]]: the entity, or [KeyError] *)
Definition getitem (s : t T) (nick : string) : result T :=
  match get s nick with
  | Some e => ret e
  | None => raise KeyError
  end.

(** [s.unique(attr=value)], with the attribute test as [p] *)
Definition unique (p : T -> bool) (s : t T) : option T :=
  match filter p s with
  | [e] => Some e
  | _ => None
  end.
End Ops.
End EntitySet.

(** ** Solars ([flint/entities/solars.py]) *)

Record Equipment : Type := { equipment_nickname : string }.

(** [Jump.goto]: a tuple, or a list of tuples when the field repeats. *)
Inductive goto_field : Type :=
| GotoTuple (g : string * string * string)
| GotoList (l : list (string * string * string)).

Record Jump : Type := {
  jump_nickname : string;
  jump_archetype : string;
  goto : goto_field }.

Record TradeLaneRing : Type := {
  ring_nickname : string;
  prev_ring : option string;
  next_ring : option string;
  tradelane_space_name : Z }.

Record BaseSolar : Type := {
  basesolar_nickname : string;
  reputation : string;
  base : string }.

(** The classified contents of a system.  [SPlanetaryBase] is both a
    Planet and a BaseSolar; [SOther] stands for the solars no claim
    looks into (Object, Wreck, Star, Planet, Zone). *)
Inductive Solar : Type :=
| SJump (j : Jump)
| STradeLaneRing (r : TradeLaneRing)
| SBaseSolar (b : BaseSolar)
| SPlanetaryBase (b : BaseSolar)
| SOther (nick : string).

(** A cargo item: a bare nickname, or a (nickname, amount) tuple. *)
Inductive cargo_item : Type :=
| Bare (nick : string)
| Pair (nick : string) (amount : Z).

(** [Loadout.cargo]: [None], one item, or a list of items. *)
Inductive cargo_field : Type :=
| CargoNone
| CargoOne (i : cargo_item)
| CargoList (l : list cargo_item).

Record Loadout : Type := {
  loadout_nickname : string;
  loadout_archetype : option string;
  cargo : cargo_field }.

(** ** Universe ([flint/entities/universe.py]) *)

Record System : Type := {
  system_nickname : string;
  file : string;
  navmapscale : float }.

Record Base : Type := {
  base_nickname : string;
  system : string }.

Record Faction : Type := {
  faction_nickname : string;
  ids_short_name : Z;
  rep : list (float * string) }.

(** Modelled from the spec: the mission records of [flint/missions.py],
    "per base nickname, mission-giver records (NPC lists with
    bribe/rumor/mission-offer fields)".  A rumor is a tuple whose last
    component is the resource id of its text; [NPC.rumor] is [None],
    one tuple, or a list of tuples. *)
Record rumor_tuple : Type := {
  rumor_head : list string;
  rumor_id : Z }.

Inductive rumor_field : Type :=
| RumorNone
| RumorOne (r : rumor_tuple)
| RumorList (l : list rumor_tuple).

Record NPC : Type := {
  npc_nickname : string;
  affiliation : string;
  rumor : rumor_field }.

Record MBase : Type := {
  mbase_nickname : string;
  local_faction : string;
  npcs : list NPC }.

#[export] Instance Equipment_Entity : Entity Equipment := equipment_nickname.
#[export] Instance Jump_Entity : Entity Jump := jump_nickname.
#[export] Instance TradeLaneRing_Entity : Entity TradeLaneRing := ring_nickname.
#[export] Instance BaseSolar_Entity : Entity BaseSolar := basesolar_nickname.
#[export] Instance Loadout_Entity : Entity Loadout := loadout_nickname.
#[export] Instance System_Entity : Entity System := system_nickname.
#[export] Instance Base_Entity : Entity Base := base_nickname.
#[export] Instance Faction_Entity : Entity Faction := faction_nickname.
#[export] Instance Solar_Entity : Entity Solar :=
  fun s =>
    match s with
    | SJump j => nickname j
    | STradeLaneRing r => nickname r
    | SBaseSolar b => nickname b
    | SPlanetaryBase b => nickname b
    | SOther n => n
    end.

(** ** The loaded data ([flint/routines.py] and [flint/missions.py]) *)

(** Modelled from the spec: the Entity Registry, which "holds, per
    entity kind, an indexed collection keyed by a unique symbolic
    name", with the solars of each system under the system's nickname
    and the mission bases as the dict [get_mbases()] returns. *)
Record Registry : Type := {
  reg_systems : list System;
  reg_contents : string -> list Solar;
  reg_bases : list Base;
  reg_factions : list Faction;
  reg_equipment : list Equipment;
  reg_mbases : list (string * MBase) }.

Module routines.
Definition get_systems (g : Registry) : EntitySet.t System :=
  EntitySet.make (reg_systems g).
Definition get_system_contents (g : Registry) (s : System) : EntitySet.t Solar :=
  EntitySet.make (reg_contents g (nickname s)).
Definition get_bases (g : Registry) : EntitySet.t Base :=
  EntitySet.make (reg_bases g).
Definition get_factions (g : Registry) : EntitySet.t Faction :=
  EntitySet.make (reg_factions g).
Definition get_equipment (g : Registry) : EntitySet.t Equipment :=
  EntitySet.make (reg_equipment g).
End routines.

Module missions.
Definition get_mbases (g : Registry) : list (string * MBase) := reg_mbases g.
End missions.

(** ** Methods of the solars *)

Module Jump.
(** [Jump.destination_system] *)
Definition destination_system (g : Registry) (self : Jump) : result System :=
  destination <-
    match goto self with
    | GotoList l =>
        match rev l with
        | [] => raise IndexError
        | (d, _, _) :: _ => ret d
        end
    | GotoTuple (d, _, _) => ret d
    end ;;
  EntitySet.getitem (routines.get_systems g) destination.
End Jump.

Module BaseSolar.
(** [BaseSolar.owner] *)
Definition owner (g : Registry) (self : BaseSolar) : result Faction :=
  EntitySet.getitem (routines.get_factions g) (reputation self).
End BaseSolar.

Module Loadout.
(** Truth value of a [cargo] field: [None], an empty nickname and an
    empty list are false. *)
Definition truthy (c : cargo_field) : bool :=
  match c with
  | CargoNone => false
  | CargoOne (Bare nick) => negb (String.eqb nick "")
  | CargoOne (Pair _ _) => true
  | CargoList [] => false
  | CargoList (_ :: _) => true
  end.

Definition set_cargo (self : Loadout) (c : cargo_field) : Loadout :=
  {| loadout_nickname := loadout_nickname self;
     loadout_archetype := loadout_archetype self;
     cargo := c |}.

(** The first statement of [loot]:
    [if type(self.cargo) is not list and self.cargo: self.cargo = [self.cargo]] *)
Definition normalize (self : Loadout) : Loadout :=
  match cargo self with
  | CargoList _ => self
  | CargoOne i => if truthy (cargo self) then set_cargo self (CargoList [i]) else self
  | CargoNone => self
  end.

(** The loop over [self.cargo] that fills [result]. *)
Definition resolve (g : Registry) (c : cargo_field) : result (list (Equipment * Z)) :=
  if truthy c then
    match c with
    | CargoList l =>
        mapM (fun equip =>
                let equip' := match equip with
                              | Pair nick amount => (nick, amount)
                              | Bare nick => (nick, 1%Z)
                              end in
                e <- EntitySet.getitem (routines.get_equipment g) (fst equip') ;;
                ret (e, snd equip'))
             l
    | _ => ret []
    end
  else ret [].

(** [[i[0] for i in result].count(e)] *)
Definition count (result : list (Equipment * Z)) (e : Equipment) : Z :=
  Z.of_nat (List.length (filter (fun x => entity_eqb x e) (map fst result))).

(** The loop [for e in default] over the dict built from [result]. *)
Definition recount (result : list (Equipment * Z)) (default : list (Equipment * Z))
  : list (Equipment * Z) :=
  fold_left (fun d e => if (1 <? count result e)%Z
                        then dict_set entity_eqb d e (count result e)
                        else d)
            (map fst default) default.

(** The sum of the amounts that [result] holds for [e]. *)
Definition total (result : list (Equipment * Z)) (e : Equipment) : Z :=
  fold_right Z.add 0%Z
    (map snd (filter (fun p => entity_eqb (fst p) e) result)).

(** [Loadout.loot]: the loadout after the call, and what the call
    returns or raises. *)
Definition loot (g : Registry) (self : Loadout)
  : Loadout * result (list (Equipment * Z)) :=
  let self' := normalize self in
  (self',
   result <- resolve g (cargo self') ;;
   ret (recount result (dict_of entity_eqb result))).
End Loadout.

(** ** Methods of the universe *)

Module System.
Definition contents (g : Registry) (self : System) : EntitySet.t Solar :=
  routines.get_system_contents g self.

(** [contents().of_type(BaseSolar)] *)
Definition bases (g : Registry) (self : System) : EntitySet.t BaseSolar :=
  EntitySet.make
    (flat_map (fun c => match c with
                        | SBaseSolar b | SPlanetaryBase b => [b]
                        | _ => []
                        end) (contents g self)).

(** [contents().of_type(Jump)] *)
Definition jumps (g : Registry) (self : System) : EntitySet.t Jump :=
  EntitySet.make
    (flat_map (fun c => match c with SJump j => [j] | _ => [] end)
              (contents g self)).

(** [System.connections] *)
Definition connections (g : Registry) (self : System)
  : result (list (Jump * System)) :=
  pairs <- mapM (fun c => d <- Jump.destination_system g c ;; ret (c, d))
                (jumps g self) ;;
  ret (dict_of entity_eqb pairs).

(** [EntitySet(c for c in self.contents() if isinstance(c, TradeLaneRing))] *)
Definition rings (g : Registry) (self : System) : EntitySet.t TradeLaneRing :=
  EntitySet.make
    (flat_map (fun c => match c with STradeLaneRing r => [r] | _ => [] end)
              (contents g self)).

(** The [while] loop of [lanes] from [current_ring] on: the rings it
    appends.  The loop need not end (the links may form a cycle), so
    it is run for at most [fuel] iterations; [None] is "not finished". *)
Fixpoint follow (fuel : nat) (rings : EntitySet.t TradeLaneRing)
         (current_ring : TradeLaneRing) : option (list TradeLaneRing) :=
  match fuel with
  | O => None
  | S fuel' =>
      match next_ring current_ring with
      | None => Some []
      | Some next =>
          if String.eqb next "" then Some []
          else
            match EntitySet.get rings next with
            | None => Some []
            | Some r => option_map (cons r) (follow fuel' rings r)
            end
      end
  end.

Fixpoint all_some {A : Type} (l : list (option A)) : option (list A) :=
  match l with
  | [] => Some []
  | None :: _ => None
  | Some a :: t => option_map (cons a) (all_some t)
  end.

(** [System.lanes].  The keys of [lanes] are the rings without a
    [prev_ring]; the list under a key is appended to in that key's
    iteration only. *)
Definition lanes (fuel : nat) (g : Registry) (self : System)
  : option (list (list TradeLaneRing)) :=
  let rings := rings g self in
  let lanes := dict_of entity_eqb
                 (map (fun r => (r, @nil TradeLaneRing))
                      (filter (fun r => match prev_ring r with
                                        | None => true
                                        | Some _ => false
                                        end) rings)) in
  all_some
    (map (fun fr => option_map (fun appended => fst fr :: snd fr ++ appended)
                               (follow fuel rings (fst fr)))
         lanes).
End System.

(** The rings that following [next_ring] from [r] reaches, one
    resolved link after the other, and the ring reached last. *)
Inductive linked (rings : EntitySet.t TradeLaneRing)
  : TradeLaneRing -> list TradeLaneRing -> TradeLaneRing -> Prop :=
| linked_end (r : TradeLaneRing) : linked rings r [] r
| linked_next (r r' last : TradeLaneRing) (n : string) (path : list TradeLaneRing) :
    next_ring r = Some n -> n <> EmptyString ->
    EntitySet.get rings n = Some r' ->
    linked rings r' path last ->
    linked rings r (r' :: path) last.

(** The ring has no [next_ring], or one that does not resolve. *)
Definition chain_ends (rings : EntitySet.t TradeLaneRing) (last : TradeLaneRing) : Prop :=
  match next_ring last with
  | None => True
  | Some n => n = EmptyString \/ EntitySet.get rings n = None
  end.

(** [r.prev_ring is None] *)
Definition is_head (r : TradeLaneRing) : bool :=
  match prev_ring r with
  | None => true
  | Some _ => false
  end.

Module Base.
(** [Base.system_] *)
Definition system_ (g : Registry) (self : Base) : result System :=
  EntitySet.getitem (routines.get_systems g) (system self).

(** [Base.solar] *)
Definition solar (g : Registry) (self : Base) : result (option BaseSolar) :=
  s <- system_ g self ;;
  ret (EntitySet.unique (fun b => String.eqb (base b) (nickname self))
                        (System.bases g s)).

(** [Base.has_solar] *)
Definition has_solar (g : Registry) (self : Base) : result bool :=
  s <- solar g self ;;
  ret (match s with Some _ => true | None => false end).

(** [Base.mbase] *)
Definition mbase (g : Registry) (self : Base) : option MBase :=
  dict_get String.eqb (missions.get_mbases g) (nickname self).

(** [Base.owner].  [None] has no method [owner]. *)
Definition owner (g : Registry) (self : Base) : result (option Faction) :=
  h <- has_solar g self ;;
  if h then
    s <- solar g self ;;
    match s with
    | Some b => f <- BaseSolar.owner g b ;; ret (Some f)
    | None => raise AttributeError
    end
  else
    match mbase g self with
    | Some m =>
        f <- EntitySet.getitem (routines.get_factions g) (local_faction m) ;;
        ret (Some f)
    | None => ret None
    end.

(** Truth value of a [rumor] field. *)
Definition truthy (r : rumor_field) : bool :=
  match r with
  | RumorNone => false
  | RumorOne _ => true
  | RumorList [] => false
  | RumorList (_ :: _) => true
  end.

Definition set_rumor (npc : NPC) (r : rumor_field) : NPC :=
  {| npc_nickname := npc_nickname npc;
     affiliation := affiliation npc;
     rumor := r |}.

(** [if type(npc.rumor) is not list: npc.rumor = [npc.rumor]], which
    is reached with a true rumor field only, so not with [None]. *)
Definition wrap (npc : NPC) : NPC :=
  match rumor npc with
  | RumorOne r => set_rumor npc (RumorList [r])
  | _ => npc
  end.

Definition rumor_ids (npc : NPC) : list Z :=
  match rumor npc with
  | RumorList l => map rumor_id l
  | RumorOne r => [rumor_id r]
  | RumorNone => []
  end.

(** [set.update]: a set of strings as the list of its members. *)
Definition set_update (s : list string) (xs : list string) : list string :=
  fold_left (fun acc x => if existsb (String.eqb x) acc then acc else acc ++ [x])
            xs s.

(** [rumors[faction].update(texts)] on a [defaultdict(set)] *)
Definition dict_update (rumors : list (Faction * list string)) (faction : Faction)
           (texts : list string) : list (Faction * list string) :=
  match dict_get entity_eqb rumors faction with
  | Some s => dict_set entity_eqb rumors faction (set_update s texts)
  | None => dict_set entity_eqb rumors faction (set_update [] texts)
  end.

(** The loop [for npc in npcs] of [rumors]: the NPC records after
    it, and the dict it built or the exception that ended it. *)
Fixpoint rumors_loop (g : Registry) (lookup : Z -> string) (npcs : list NPC)
         (rumors : list (Faction * list string))
  : list NPC * result (list (Faction * list string)) :=
  match npcs with
  | [] => ([], ret rumors)
  | npc :: rest =>
      if truthy (rumor npc) then
        let npc' := wrap npc in
        match EntitySet.getitem (routines.get_factions g) (affiliation npc') with
        | inl e => (npc' :: rest, inl e)
        | inr faction =>
            let rumors' := dict_update rumors faction
                                       (map lookup (rumor_ids npc')) in
            let (rest', r) := rumors_loop g lookup rest rumors' in
            (npc' :: rest', r)
        end
      else
        let (rest', r) := rumors_loop g lookup rest rumors in
        (npc :: rest', r)
  end.

Definition set_mbases (g : Registry) (m : list (string * MBase)) : Registry :=
  {| reg_systems := reg_systems g;
     reg_contents := reg_contents g;
     reg_bases := reg_bases g;
     reg_factions := reg_factions g;
     reg_equipment := reg_equipment g;
     reg_mbases := m |}.

Definition set_npcs (m : MBase) (l : list NPC) : MBase :=
  {| mbase_nickname := mbase_nickname m;
     local_faction := local_faction m;
     npcs := l |}.

(** [Base.rumors], with [lookup] the function selected by [markup]:
    the loaded data after the call (the NPC records are shared with
    [get_mbases()]), and what the call returns or raises. *)
Definition rumors (g : Registry) (lookup : Z -> string) (self : Base)
  : Registry * result (list (Faction * list string)) :=
  match mbase g self with
  | Some m =>
      let (npcs', r) := rumors_loop g lookup (npcs m) [] in
      (set_mbases g (dict_set String.eqb (missions.get_mbases g) (nickname self)
                              (set_npcs m npcs')),
       r)
  | None => (g, ret [])
  end.
End Base.

(** What [rumors] may change in a rumor field: nothing, or one tuple
    becomes the list of that tuple. *)
Definition wrapped (r r' : rumor_field) : Prop :=
  r' = r \/ exists t, r = RumorOne t /\ r' = RumorList [t].

Definition npc_wrapped (n n' : NPC) : Prop :=
  npc_nickname n' = npc_nickname n /\ affiliation n' = affiliation n /\
  wrapped (rumor n) (rumor n').

Definition mbase_wrapped (m m' : string * MBase) : Prop :=
  fst m' = fst m /\ mbase_nickname (snd m') = mbase_nickname (snd m) /\
  local_faction (snd m') = local_faction (snd m) /\
  Forall2 npc_wrapped (npcs (snd m)) (npcs (snd m')).

Module Faction.
#[warnings="-inexact-float"]
Definition NODOCK_REP : float := (-0.65)%float.

(** [Faction.bases].  [None] has no attribute [reputation]. *)
Fixpoint owned (g : Registry) (self : Faction) (l : list Base) : result (list Base) :=
  match l with
  | [] => ret []
  | b :: t =>
      h <- Base.has_solar g b ;;
      keep <- (if h then
                 s <- Base.solar g b ;;
                 match s with
                 | Some bs => ret (String.eqb (reputation bs) (nickname self))
                 | None => raise AttributeError
                 end
               else ret false) ;;
      r <- owned g self t ;;
      ret (if keep then b :: r else r)
  end.

Definition bases (g : Registry) (self : Faction) : result (EntitySet.t Base) :=
  l <- owned g self (routines.get_bases g) ;;
  ret (EntitySet.make l).

(** [Faction.rep_sheet] *)
Definition rep_sheet (g : Registry) (self : Faction) : list (Faction * float) :=
  let factions := routines.get_factions g in
  dict_of entity_eqb
    (flat_map (fun rf => match EntitySet.get factions (snd rf) with
                         | Some f => [(f, fst rf)]
                         | None => []
                         end)
              (rep self)).

(** The value this faction's raw reputation vector gives for the
    faction [other]: that of the last entry naming it. *)
Definition reputation_toward (self other : Faction) : option float :=
  fold_left (fun acc rf => if String.eqb (snd rf) (nickname other)
                           then Some (fst rf) else acc)
            (rep self) None.

(** What [can_dock_at] is called with: the annotation says a
    [BaseSolar], the specification a [Base]; both have [owner()]. *)
Inductive dockable : Type :=
| AtBase (b : Base)
| AtSolar (b : BaseSolar).

Definition owner_of (g : Registry) (b : dockable) : result (option Faction) :=
  match b with
  | AtBase b => Base.owner g b
  | AtSolar b => f <- BaseSolar.owner g b ;; ret (Some f)
  end.

(** [Faction.can_dock_at].  [None] is never a key of the sheet. *)
Definition can_dock_at (g : Registry) (self : Faction) (b : dockable) : result bool :=
  o <- owner_of g b ;;
  r <- match o with
       | Some f => dict_getitem entity_eqb (rep_sheet g self) f
       | None => raise KeyError
       end ;;
  ret (PrimFloat.ltb NODOCK_REP r).
End Faction.

(** ** Sample data *)

Module Sample.
Local Open Scope string_scope.

Definition no_contents : string -> list Solar := fun _ => [].

(** Two pieces of equipment and the loadout of the specification's
    example: cargo [[("ammo_01", 3), ("ammo_01", 2), "shield_01"]]. *)
Definition ammo_01 : Equipment := {| equipment_nickname := "ammo_01" |}.
Definition shield_01 : Equipment := {| equipment_nickname := "shield_01" |}.

Definition armory : Registry :=
  {| reg_systems := [];
     reg_contents := no_contents;
     reg_bases := [];
     reg_factions := [];
     reg_equipment := [ammo_01; shield_01];
     reg_mbases := [] |}.

Definition wreck_loadout : Loadout :=
  {| loadout_nickname := "secret_wreck_01";
     loadout_archetype := None;
     cargo := CargoList [Pair "ammo_01" 3; Pair "ammo_01" 2; Bare "shield_01"] |}.

(** A loadout whose cargo is one tuple, not a list. *)
Definition single_loadout : Loadout :=
  {| loadout_nickname := "secret_wreck_02";
     loadout_archetype := None;
     cargo := CargoOne (Pair "ammo_01" 3) |}.

(** A system whose only jump gate leads to a system that is not
    loaded. *)
Definition li01 : System :=
  {| system_nickname := "li01"; file := "systems\li01\li01.ini";
     navmapscale := 1%float |}.

Definition gate_to_li05 : Jump :=
  {| jump_nickname := "li01_to_li05";
     jump_archetype := "jumpgate";
     goto := GotoTuple ("li05", "li05_to_li01", "gate_tunnel_bretonia") |}.

Definition dangling : Registry :=
  {| reg_systems := [li01];
     reg_contents := fun n => if String.eqb n "li01" then [SJump gate_to_li05] else [];
     reg_bases := [];
     reg_factions := [];
     reg_equipment := [];
     reg_mbases := [] |}.

(** A universe of one system with a trade lane of three rings and one
    station, two factions, and a base without a solar. *)
Definition ring_1 : TradeLaneRing :=
  {| ring_nickname := "li01_trade_lane_ring_1";
     prev_ring := None;
     next_ring := Some "li01_trade_lane_ring_2";
     tradelane_space_name := 0 |}.

Definition ring_2 : TradeLaneRing :=
  {| ring_nickname := "li01_trade_lane_ring_2";
     prev_ring := Some "li01_trade_lane_ring_1";
     next_ring := Some "li01_trade_lane_ring_3";
     tradelane_space_name := 0 |}.

Definition ring_3 : TradeLaneRing :=
  {| ring_nickname := "li01_trade_lane_ring_3";
     prev_ring := Some "li01_trade_lane_ring_2";
     next_ring := None;
     tradelane_space_name := 0 |}.

Definition manhattan_solar : BaseSolar :=
  {| basesolar_nickname := "li01_01";
     reputation := "li_n_grp";
     base := "li01_01_base" |}.

Definition manhattan : Base :=
  {| base_nickname := "li01_01_base"; system := "li01" |}.

Definition virtual_base : Base :=
  {| base_nickname := "li01_proxy_base"; system := "li01" |}.

Definition li_n_grp : Faction :=
  {| faction_nickname := "li_n_grp";
     ids_short_name := 196846;
     rep := [(1%float, "li_n_grp"); ((-1)%float, "fc_or_grp")] |}.

Definition fc_or_grp : Faction :=
  {| faction_nickname := "fc_or_grp";
     ids_short_name := 196872;
     rep := [((-1)%float, "li_n_grp"); (1%float, "fc_or_grp");
             (0.5%float, "fc_unknown_grp")] |}.

Definition sirius : Registry :=
  {| reg_systems := [li01];
     reg_contents := fun n =>
       if String.eqb n "li01"
       then [STradeLaneRing ring_1; SBaseSolar manhattan_solar;
             STradeLaneRing ring_2; STradeLaneRing ring_3]
       else [];
     reg_bases := [manhattan; virtual_base];
     reg_factions := [li_n_grp; fc_or_grp];
     reg_equipment := [ammo_01; shield_01];
     reg_mbases := [] |}.

(** The mission base of Manhattan: one NPC with a single rumor, one
    with two, one with none. *)
Definition bartender : NPC :=
  {| npc_nickname := "li0101_fix_bartender";
     affiliation := "li_n_grp";
     rumor := RumorOne {| rumor_head := ["base_0_rank"; "mission_end"; "1"];
                          rumor_id := 131413 |} |}.

Definition trader : NPC :=
  {| npc_nickname := "li0101_fix_trader";
     affiliation := "fc_or_grp";
     rumor := RumorList [ {| rumor_head := ["base_0_rank"; "mission_end"; "1"];
                             rumor_id := 131420 |};
                          {| rumor_head := ["base_0_rank"; "mission_end"; "2"];
                             rumor_id := 131413 |} ] |}.

Definition dealer : NPC :=
  {| npc_nickname := "li0101_fix_dealer";
     affiliation := "li_n_grp";
     rumor := RumorNone |}.

Definition manhattan_mbase : MBase :=
  {| mbase_nickname := "li01_01_base";
     local_faction := "li_n_grp";
     npcs := [bartender; trader; dealer] |}.

Definition sirius_missions : Registry :=
  Base.set_mbases sirius [("li01_01_base", manhattan_mbase)].

(** The resource strings of the two rumors. *)
Definition rumor_text (id : Z) : string :=
  if Z.eqb id 131413 then "The Navy is hiring."
  else if Z.eqb id 131420 then "The Order does not exist."
  else "".


End Sample.

(** ** Plain text ([flint/interface.py]) *)

Module Plaintext.
Import Interface.

(** Where the lazy [.*?>] of the pattern [<.*?>] ends when tried at
    the start of [s]: the offset of the first [>] that no newline
    precedes ([.] does not match a newline). *)
Fixpoint tag_end (s : pystr) : option nat :=
  match s with
  | [] => None
  | c :: t =>
      if N.eqb c 62 then Some 0
      else if N.eqb c 10 then None
      else option_map S (tag_end t)
  end.

(** [re.sub('<.*?>', '', text)]: the matches are found from the left
    and do not overlap; [skip] counts the code points of a found match
    that are still to be passed over. *)
Fixpoint strip_scan (skip : nat) (s : pystr) : pystr :=
  match s with
  | [] => []
  | c :: t =>
      match skip with
      | S k => strip_scan k t
      | O =>
          if N.eqb c 60 then
            match tag_end t with
            | Some n => strip_scan (S n) t
            | None => c :: strip_scan 0 t
            end
          else c :: strip_scan 0 t
      end
  end.

(** [strip_html] *)
Definition strip_html (text : pystr) : pystr := strip_scan 0 text.

(** [rdl_to_plaintext], up to its [return]; the statements after it
    are never reached. *)
Definition rdl_to_plaintext (rdl : pystr) : pystr :=
  replace (lit "&nbsp;") []
          (strip_html (replace (lit "<p>") [10%N] (rdl_to_html rdl))).

(** No code point of [s] is [<] or the non-breaking space: no key of
    the table can start in [s]. *)
Definition tag_free (s : pystr) : bool :=
  forallb (fun c => negb (N.eqb c 60) && negb (N.eqb c 160)) s.

(** No code point of [s] is [<], [&] or the non-breaking space. *)
Definition text_only (s : pystr) : bool :=
  forallb (fun c => negb (N.eqb c 60) && negb (N.eqb c 38) && negb (N.eqb c 160)) s.

(** [p] and [v] differ at a position that both have. *)
Fixpoint differ (p v : pystr) : bool :=
  match p, v with
  | a :: p', b :: v' => if N.eqb a b then differ p' v' else true
  | _, _ => false
  end.

(** [p] differs from every non-empty suffix of [u]: whatever follows
    [u], no occurrence of [p] starts inside [u]. *)
Fixpoint blocked (p u : pystr) : bool :=
  match u with
  | [] => true
  | _ :: t => differ p u && blocked p t
  end.

(** A key starts with [<] or the non-breaking space. *)
Definition key_head (p : pystr) : bool :=
  match p with
  | [] => false
  | c :: _ => N.eqb c 60 || N.eqb c 160
  end.

(** The entry [(w, h)] stands between [pre] and [post] in a table
    whose keys cannot start inside a context without [<] and
    non-breaking space: no earlier key occurs in [w] or an extension
    of it, and no later key in [h] or an extension of it. *)
Definition entry_alone (pre : list (pystr * pystr)) (w h : pystr)
           (post : list (pystr * pystr)) : bool :=
  key_head w
  && forallb (fun e => key_head (fst e) && blocked (fst e) w) pre
  && forallb (fun e => key_head (fst e) && blocked (fst e) h) post.

(** [entry_alone] for every entry of [rest], with [pre] (reversed)
    the entries before it. *)
Fixpoint entries_alone (pre rest : list (pystr * pystr)) : bool :=
  match rest with
  | [] => true
  | (w, h) :: post =>
      entry_alone (rev pre) w h post && entries_alone ((w, h) :: pre) post
  end.

(** [h] is made of complete tags only: [strip_scan] takes all of it
    out, whatever follows. *)
Fixpoint closed (skip : nat) (h : pystr) : bool :=
  match h with
  | [] => Nat.eqb skip 0
  | c :: t =>
      match skip with
      | S k => closed k t
      | O =>
          if N.eqb c 60 then
            match tag_end t with
            | Some n => closed (S n) t
            | None => false
            end
          else false
      end
  end.

(** The two strings have the same code points. *)
Fixpoint same (x y : pystr) : bool :=
  match x, y with
  | [], [] => true
  | a :: x', b :: y' => N.eqb a b && same x' y'
  | _, _ => false
  end.

(** An HTML side of the table is the paragraph tag, the entity of
    the non-breaking space, or complete tags in which [<p>] does not
    occur. *)
Definition html_side (h : pystr) : bool :=
  same h (lit "<p>") || same h (lit "&nbsp;")
  || (blocked (lit "<p>") h && closed 0 h).
End Plaintext.

(** ** More of the solars and of the loadouts *)

Module Solars.
(** [BaseSolar.universe_base] *)
Definition universe_base (g : Registry) (self : BaseSolar) : option Base :=
  EntitySet.get (routines.get_bases g) (base self).

(** The [destination] of [Jump.destination_system]: the first
    component of [goto], or of its last tuple when it is a list, which
    must not be empty. *)
Definition destination (self : Jump) : option string :=
  match goto self with
  | GotoList l =>
      match rev l with
      | [] => None
      | (d, _, _) :: _ => Some d
      end
  | GotoTuple (d, _, _) => Some d
  end.
End Solars.

Module Cargo.
(** The items that the loop of [Loadout.loot] visits: those of a
    list, the one true item that the first statement puts in a list,
    or none. *)
Definition items (c : cargo_field) : list cargo_item :=
  match c with
  | CargoList l => l
  | CargoOne i => if Loadout.truthy c then [i] else []
  | CargoNone => []
  end.

Definition item_nickname (i : cargo_item) : string :=
  match i with
  | Bare nick => nick
  | Pair nick _ => nick
  end.

Definition item_amount (i : cargo_item) : Z :=
  match i with
  | Bare _ => 1%Z
  | Pair _ amount => amount
  end.

(** One turn of the loop: the pair appended to [result]. *)
Definition resolve_item (g : Registry) (i : cargo_item) : result (Equipment * Z) :=
  e <- EntitySet.getitem (routines.get_equipment g) (item_nickname i) ;;
  ret (e, item_amount i).

(** The distinct names of a list, each at its first place. *)
Definition first_seen (l : list string) : list string :=
  fold_left (fun acc n => if existsb (String.eqb n) acc then acc else acc ++ [n])
            l [].

(** How often [n] is in [l]. *)
Definition occurrences (l : list string) (n : string) : Z :=
  Z.of_nat (List.length (filter (String.eqb n) l)).
End Cargo.

(** ** More sample data *)

Module Circular.
Local Open Scope string_scope.

(** A lane whose last ring points back at the second. *)
Definition ring_a : TradeLaneRing :=
  {| ring_nickname := "li02_trade_lane_ring_1";
     prev_ring := None;
     next_ring := Some "li02_trade_lane_ring_2";
     tradelane_space_name := 0 |}.

Definition ring_b : TradeLaneRing :=
  {| ring_nickname := "li02_trade_lane_ring_2";
     prev_ring := Some "li02_trade_lane_ring_1";
     next_ring := Some "li02_trade_lane_ring_3";
     tradelane_space_name := 0 |}.

Definition ring_c : TradeLaneRing :=
  {| ring_nickname := "li02_trade_lane_ring_3";
     prev_ring := Some "li02_trade_lane_ring_2";
     next_ring := Some "li02_trade_lane_ring_2";
     tradelane_space_name := 0 |}.

Definition li02 : System :=
  {| system_nickname := "li02"; file := "systems\li02\li02.ini";
     navmapscale := 1%float |}.

Definition looped : Registry :=
  {| reg_systems := [li02];
     reg_contents := fun n =>
       if String.eqb n "li02"
       then [STradeLaneRing ring_a; STradeLaneRing ring_b; STradeLaneRing ring_c]
       else [];
     reg_bases := [];
     reg_factions := [];
     reg_equipment := [];
     reg_mbases := [] |}.


(** Two systems and a jump hole from the second to the first. *)
Definition hole_to_li01 : Jump :=
  {| jump_nickname := "li02_to_li01_hole";
     jump_archetype := "jumphole";
     goto := GotoTuple ("li01", "li01_to_li02_hole", "gate_tunnel_bretonia") |}.

Definition joined : Registry :=
  {| reg_systems := [Sample.li01; li02];
     reg_contents := fun n =>
       if String.eqb n "li02" then [SOther "li02_sun"; SJump hole_to_li01] else [];
     reg_bases := [];
     reg_factions := [];
     reg_equipment := [];
     reg_mbases := [] |}.

(** A loadout of different items. *)
Definition mixed_loadout : Loadout :=
  {| loadout_nickname := "secret_wreck_03";
     loadout_archetype := None;
     cargo := CargoList [Pair "shield_01" 2; Bare "ammo_01"] |}.

(** A loadout with an item that is not loaded. *)
Definition unknown_loadout : Loadout :=
  {| loadout_nickname := "secret_wreck_04";
     loadout_archetype := None;
     cargo := CargoList [Bare "ammo_01"; Pair "ammo_99" 4] |}.
End Circular.

(** ** Reading a rumor dict *)

Module Rumors.
(** The set that the dict holds for a faction, empty when it has
    none. *)
Definition texts (d : list (Faction * list string)) (f : Faction) : list string :=
  match dict_get entity_eqb d f with
  | Some s => s
  | None => []
  end.

(** [t] is the text of a rumor of an NPC of [l] that has a true rumor
    field and is affiliated with [f]. *)
Definition told (lookup : Z -> string) (l : list NPC) (f : Faction) (t : string) : Prop :=
  exists npc id,
    In npc l /\ Base.truthy (rumor npc) = true /\
    affiliation npc = nickname f /\
    In id (Base.rumor_ids npc) /\ t = lookup id.
End Rumors.

(** ** The rumors of a faction ([flint/entities/universe.py]) *)

Module Universe.
(** The loop of [Faction.rumors] over the bases, from the loaded data
    [g] and the dict [result] on.  [base.rumors()] is called once for
    the test of the keys and once more for the value, and each call
    may rewrite NPC records.  Nothing that the model of [has_solar]
    and of [Base.rumors] raises is an [AttributeError], so the
    [except] clause takes nothing and every error ends the loop. *)
Fixpoint rumors_loop (lookup : Z -> string) (self : Faction) (bases : list Base)
         (g : Registry) (result : list (string * list string))
  : Registry * (exn + list (string * list string)) :=
  match bases with
  | [] => (g, ret result)
  | base :: rest =>
      match Base.has_solar g base with
      | inl e => (g, inl e)
      | inr false => rumors_loop lookup self rest g result
      | inr true =>
          let (g1, keys) := Base.rumors g lookup base in
          match keys with
          | inl e => (g1, inl e)
          | inr d1 =>
              match dict_get entity_eqb d1 self with
              | None => rumors_loop lookup self rest g1 result
              | Some _ =>
                  let (g2, value) := Base.rumors g1 lookup base in
                  match value with
                  | inl e => (g2, inl e)
                  | inr d2 =>
                      match dict_getitem entity_eqb d2 self with
                      | inl e => (g2, inl e)
                      | inr texts =>
                          rumors_loop lookup self rest g2
                            (dict_set String.eqb result (nickname base) texts)
                      end
                  end
              end
          end
      end
  end.

(** [Faction.rumors], with [lookup] the function of the default
    markup. *)
Definition rumors (g : Registry) (lookup : Z -> string) (self : Faction)
  : Registry * (exn + list (string * list string)) :=
  rumors_loop lookup self (routines.get_bases g) g [].
End Universe.

(** * Properties *)

Unset Implicit Arguments.

(** ** Results *)

Lemma bind_ret_inv {A B : Type} (m : result A) (k : A -> result B) (b : B) :
  bind m k = inr b -> exists a, m = inr a /\ k a = inr b.
Proof.
  destruct m as [e | a]; simpl; intro E.
  - discriminate.
  - exists a. split; [reflexivity | exact E].
Qed.

(** ** The markup translator *)

Section Translator.
Import Interface.

Lemma starts_with_app (p v : pystr) : starts_with p (p ++ v) = true.
Proof.
  induction p as [| a p IH]; simpl.
  - reflexivity.
  - rewrite N.eqb_refl. exact IH.
Qed.

Lemma starts_with_split (p s : pystr) :
  starts_with p s = true -> exists r, s = p ++ r.
Proof.
  revert s. induction p as [| a p IH]; intros s E.
  - exists s. reflexivity.
  - destruct s as [| b s]; simpl in E; [discriminate |].
    apply andb_prop in E. destruct E as [Eab E].
    apply N.eqb_eq in Eab. subst b.
    destruct (IH _ E) as [r ->]. exists r. reflexivity.
Qed.

Lemma contains_here (p s : pystr) :
  starts_with p s = true -> contains p s = true.
Proof.
  destruct s as [| c s]; simpl; intro E.
  - exact E.
  - destruct p; simpl in *; [reflexivity | rewrite E; reflexivity].
Qed.

(** [contains] is Python's substring test. *)
Lemma contains_spec (p s : pystr) :
  contains p s = true <-> exists l r, s = l ++ p ++ r.
Proof.
  split.
  - induction s as [| c s IH]; simpl; intro E.
    + apply starts_with_split in E. destruct E as [r E].
      exists [], r. exact E.
    + apply orb_prop in E. destruct E as [E | E].
      * apply starts_with_split in E. destruct E as [r E].
        exists [], r. exact E.
      * destruct (IH E) as (l & r & ->). exists (c :: l), r. reflexivity.
  - intros (l & r & ->). induction l as [| c l IH]; simpl.
    + apply contains_here. apply starts_with_app.
    + rewrite IH. apply orb_true_r.
Qed.

Lemma replace_scan_absent (old new s : pystr) :
  contains old s = false -> replace_scan old new 0 s = s.
Proof.
  induction s as [| c s IH]; simpl; intro E.
  - reflexivity.
  - apply orb_false_elim in E. destruct E as [E1 E2].
    simpl in E1. rewrite E1. rewrite (IH E2). reflexivity.
Qed.

(** Replacing a pattern that does not occur changes nothing. *)
Lemma replace_absent (old new s : pystr) :
  contains old s = false -> replace old new s = s.
Proof.
  destruct old as [| a old]; intro E.
  - destruct s; discriminate.
  - apply replace_scan_absent. exact E.
Qed.

Lemma forward_absent (table : list (pystr * pystr)) (s : pystr) :
  Forall (fun entry => contains (fst entry) s = false) table ->
  fold_left (fun result '(rdl_tag, html_tag) => replace rdl_tag html_tag result)
            table s = s.
Proof.
  induction 1 as [| [rdl_tag html_tag] table E _ IH]; simpl.
  - reflexivity.
  - simpl in E. rewrite (replace_absent _ _ _ E). exact IH.
Qed.

(** C8: a string in which no markup-side pattern of the table occurs
    is a fixed point of the forward translation. *)
Theorem rdl_to_html_fixed_point (s : pystr) :
  Forall (fun entry => contains (fst entry) s = false) RDL_TO_HTML ->
  rdl_to_html s = s.
Proof.
  intro E. unfold rdl_to_html. apply forward_absent. exact E.
Qed.

Lemma rdl_to_html_fixed_point_witness :
  let s := lit "<b>Planet Manhattan</b><p align='left'>Population: 220 million&nbsp;</p>" in
  Forall (fun entry => contains (fst entry) s = false) RDL_TO_HTML /\
  rdl_to_html s = s.
Proof.
  intro s.
  assert (E : Forall (fun entry => contains (fst entry) s = false) RDL_TO_HTML).
  { repeat constructor. }
  split; [exact E | apply (rdl_to_html_fixed_point s); exact E].
Defined.
End Translator.

(** *** Reverse, then forward *)

Section Unstable.
Import Interface.

Lemma replace_nonempty (old new s : pystr) :
  old <> [] -> replace old new s = replace_scan old new 0 s.
Proof.
  destruct old; [intro E; contradiction E; reflexivity | reflexivity].
Qed.

Lemma replace_scan_skip (old new l v : pystr) :
  replace_scan old new (List.length l) (l ++ v) = replace_scan old new 0 v.
Proof.
  induction l as [| c l IH]; simpl.
  - destruct v; reflexivity.
  - exact IH.
Qed.

Lemma replace_scan_hit (old new v : pystr) :
  old <> [] ->
  replace_scan old new 0 (old ++ v) = new ++ replace_scan old new 0 v.
Proof.
  destruct old as [| a old]; intro E; [contradiction E; reflexivity |].
  change ((a :: old) ++ v) with (a :: (old ++ v)).
  cbn [replace_scan].
  change (a :: old ++ v) with ((a :: old) ++ v).
  rewrite starts_with_app. cbn [List.length pred].
  rewrite replace_scan_skip. reflexivity.
Qed.

Lemma xml_header_head : xml_header = 60%N :: 63%N :: tl (tl xml_header).
Proof. reflexivity. Qed.

Lemma xml_header_last : xml_header = removelast xml_header ++ [62%N].
Proof. reflexivity. Qed.

Lemma starts_with_shifted (c : N) (w : pystr) :
  starts_with xml_header (c :: xml_header ++ w) = false.
Proof.
  rewrite xml_header_head. generalize (tl (tl xml_header)). intro r.
  cbn [starts_with app]. change (N.eqb 63 60) with false.
  rewrite andb_false_r. reflexivity.
Qed.

(** Removing the XML header from a string that has it before every
    code point and at the end gives the string back. *)
Lemma strip_xml_header (s : pystr) :
  replace xml_header [] (replace [] xml_header s) = s.
Proof.
  assert (N : xml_header <> []) by (rewrite xml_header_head; discriminate).
  rewrite (replace_nonempty _ _ _ N). unfold replace at 1.
  rewrite (replace_scan_hit _ _ _ N). simpl app.
  induction s as [| c s IH].
  - reflexivity.
  - cbn [flat_map]. change ((c :: xml_header) ++ ?v) with (c :: xml_header ++ v).
    cbn [replace_scan]. rewrite starts_with_shifted.
    rewrite (replace_scan_hit _ _ _ N). simpl app. rewrite IH. reflexivity.
Qed.

Lemma lt_followed_app_cons (u : pystr) (x : N) (v : pystr) :
  lt_followed (u ++ [x]) = true -> lt_followed (x :: v) = true ->
  lt_followed (u ++ x :: v) = true.
Proof.
  intros Hu Hv. induction u as [| a u IH].
  - exact Hv.
  - cbn [app lt_followed] in *.
    apply andb_prop in Hu. destruct Hu as [H1 H2].
    rewrite (IH H2), andb_true_r.
    destruct u; exact H1.
Qed.

Lemma lt_followed_header (v : pystr) :
  lt_followed v = true -> lt_followed (xml_header ++ v) = true.
Proof.
  intro Hv. rewrite xml_header_last, <- app_assoc.
  change ([62%N] ++ v) with (62%N :: v).
  apply lt_followed_app_cons.
  - reflexivity.
  - cbn [lt_followed]. rewrite Hv. destruct v; reflexivity.
Qed.

Lemma lt_followed_interleave (s : pystr) :
  lt_followed (replace [] xml_header s) = true.
Proof.
  unfold replace. apply lt_followed_header.
  induction s as [| c s IH].
  - reflexivity.
  - cbn [flat_map]. change ((c :: xml_header) ++ ?v) with (c :: xml_header ++ v).
    cbn [lt_followed]. rewrite (lt_followed_header _ IH), andb_true_r.
    rewrite xml_header_head. cbn [app]. rewrite N.eqb_refl. apply orb_true_r.
Qed.

Lemma no_nbsp_insert (new s : pystr) :
  no_nbsp new = true -> no_nbsp s = true -> no_nbsp (replace [] new s) = true.
Proof.
  intros Hn Hs. unfold replace, no_nbsp in *. rewrite forallb_app, Hn.
  cbn [andb]. induction s as [| c s IH].
  - reflexivity.
  - cbn [forallb] in Hs. apply andb_prop in Hs. destruct Hs as [Hc Hs].
    cbn [flat_map]. rewrite forallb_app. cbn [forallb].
    rewrite Hc, Hn, (IH Hs). reflexivity.
Qed.

Lemma lt_followed_absent (b : N) (p s : pystr) :
  lt_followed s = true -> N.eqb b 63 = false -> N.eqb b 60 = false ->
  contains (60%N :: b :: p) s = false.
Proof.
  intros Hs H63 H60. induction s as [| x s IH].
  - reflexivity.
  - cbn [lt_followed] in Hs. apply andb_prop in Hs. destruct Hs as [Hx Hs].
    cbn [contains]. rewrite (IH Hs), orb_false_r.
    cbn [starts_with]. destruct s as [| y s]; [apply andb_false_r |].
    destruct (N.eqb_spec 60 x) as [<- | _]; [| reflexivity].
    destruct (N.eqb_spec b y) as [<- | _]; [| reflexivity].
    rewrite H63, H60 in Hx. discriminate.
Qed.

Lemma no_nbsp_absent (s : pystr) :
  no_nbsp s = true -> contains [160%N] s = false.
Proof.
  induction s as [| c s IH]; intro H.
  - reflexivity.
  - cbn [no_nbsp forallb] in H. apply andb_prop in H. destruct H as [Hc Hs].
    cbn [contains starts_with]. rewrite (IH Hs), orb_false_r, andb_true_r.
    rewrite N.eqb_sym. apply negb_true_iff. exact Hc.
Qed.

Lemma plain_key_absent (p s : pystr) :
  plain_key p = true -> lt_followed s = true -> no_nbsp s = true ->
  contains p s = false.
Proof.
  intros Hp Hl Hn. destruct p as [| x [| b p]]; cbn [plain_key] in Hp.
  - discriminate.
  - apply N.eqb_eq in Hp. subst x. apply no_nbsp_absent. exact Hn.
  - apply andb_prop in Hp. destruct Hp as [Hp H60].
    apply andb_prop in Hp. destruct Hp as [Hx H63].
    apply N.eqb_eq in Hx. subst x.
    apply negb_true_iff in H60, H63.
    apply lt_followed_absent; assumption.
Qed.

Lemma table_split :
  RDL_TO_HTML = firstn 36 RDL_TO_HTML ++ [(xml_header, [])].
Proof. reflexivity. Qed.

Lemma table_plain_keys :
  forallb (fun entry => plain_key (fst entry)) (firstn 36 RDL_TO_HTML) = true.
Proof. reflexivity. Qed.

(** What the reverse translation's last step inserted, the forward
    translation takes out again, and nothing else: forward of
    "header before every code point of [s]" is [s]. *)
Lemma rdl_to_html_strips (s : pystr) :
  no_nbsp s = true -> rdl_to_html (replace [] xml_header s) = s.
Proof.
  intro Hn. unfold rdl_to_html. rewrite table_split, fold_left_app.
  rewrite (forward_absent (firstn 36 RDL_TO_HTML)).
  - cbn [fold_left]. apply strip_xml_header.
  - assert (Hl := lt_followed_interleave s).
    assert (Hn' : no_nbsp (replace [] xml_header s) = true)
      by (apply no_nbsp_insert; [reflexivity | exact Hn]).
    assert (K := table_plain_keys). rewrite forallb_forall in K.
    apply Forall_forall. intros entry Hin.
    apply plain_key_absent; [apply K; exact Hin | exact Hl | exact Hn'].
Qed.

Lemma html_to_rdl_body (html : pystr) :
  html_to_rdl html = replace [] xml_header (reverse_body html).
Proof. reflexivity. Qed.

(** Reverse then forward gives back the string with the six other
    insertions still in it. *)
Lemma reverse_forward (html : pystr) :
  no_nbsp (fold_left reverse_step (firstn 30 RDL_TO_HTML) html) = true ->
  rdl_to_html (html_to_rdl html) = reverse_body html.
Proof.
  intro Hn. rewrite html_to_rdl_body. apply rdl_to_html_strips.
  unfold reverse_body.
  repeat (apply no_nbsp_insert; [reflexivity |]). exact Hn.
Qed.

Lemma insert_nonempty (new s : pystr) : new <> [] -> replace [] new s <> [].
Proof.
  intros N E. unfold replace in E. apply app_eq_nil in E. tauto.
Qed.

(** C3, evaluated at the output of the forward translator on the
    empty string: that output is the empty string, and translating
    it back and forward again does not give the empty string but
    the insertions of the six empty-tag entries before the last. *)
Theorem reverse_forward_of_empty :
  rdl_to_html [] = [] /\
  rdl_to_html (html_to_rdl (rdl_to_html [])) = reverse_body [] /\
  rdl_to_html (html_to_rdl (rdl_to_html [])) <> rdl_to_html [].
Proof.
  assert (E : rdl_to_html [] = []) by reflexivity.
  rewrite E.
  assert (R : rdl_to_html (html_to_rdl []) = reverse_body [])
    by (apply reverse_forward; reflexivity).
  rewrite R. repeat split.
  unfold reverse_body. apply insert_nonempty. discriminate.
Qed.
End Unstable.

(** *** Reverse, then forward, on text without [&] *)

Section Grows.
Import Interface.

Lemma replace_scan_length (old new : pystr) :
  1 <= List.length old <= List.length new ->
  forall s skip,
    List.length s <= List.length (replace_scan old new skip s) + skip.
Proof.
  intros L s. induction s as [| c s IH]; intro skip; simpl.
  - lia.
  - destruct skip as [| k].
    + destruct (starts_with old (c :: s)).
      * rewrite length_app. specialize (IH (pred (List.length old))). lia.
      * simpl. specialize (IH 0). lia.
    + specialize (IH k). lia.
Qed.

Lemma insert_length (new s : pystr) :
  List.length s + List.length new <= List.length (replace [] new s).
Proof.
  unfold replace. rewrite length_app.
  induction s as [| c s IH]; simpl; [lia |].
  rewrite length_app. lia.
Qed.

Lemma plain_text_replace_scan (old new : pystr) :
  plain_text new = true ->
  forall s skip, plain_text s = true ->
                 plain_text (replace_scan old new skip s) = true.
Proof.
  intros Pn s. unfold plain_text in *.
  induction s as [| c s IH]; intros skip Ps; simpl.
  - reflexivity.
  - simpl in Ps. apply andb_prop in Ps. destruct Ps as [Pc Ps].
    destruct skip as [| k]; [| exact (IH k Ps)].
    destruct (starts_with old (c :: s)).
    + rewrite forallb_app, Pn. exact (IH _ Ps).
    + simpl. rewrite Pc. exact (IH 0 Ps).
Qed.

Lemma plain_text_no_amp (p s : pystr) :
  plain_text s = true -> contains (38%N :: p) s = false.
Proof.
  unfold plain_text. induction s as [| c s IH]; intro Ps.
  - reflexivity.
  - cbn [forallb] in Ps. apply andb_prop in Ps. destruct Ps as [Pc Ps].
    cbn [contains starts_with]. rewrite (IH Ps), orb_false_r.
    apply andb_prop in Pc. destruct Pc as [_ Pc]. apply negb_true_iff in Pc.
    rewrite N.eqb_sym, Pc. reflexivity.
Qed.

Lemma plain_text_no_nbsp (s : pystr) : plain_text s = true -> no_nbsp s = true.
Proof.
  unfold plain_text, no_nbsp. induction s as [| c s IH]; simpl; intro Ps.
  - reflexivity.
  - apply andb_prop in Ps. destruct Ps as [Pc Ps]. rewrite (IH Ps), andb_true_r.
    apply andb_prop in Pc. tauto.
Qed.

(** The reverse steps whose RDL tag is plain text and not shorter
    than the HTML tag keep a text plain and do not shorten it. *)
Lemma reverse_steps_plain (table : list (pystr * pystr)) :
  forallb (fun entry => plain_text (fst entry)
                        && (1 <=? List.length (snd entry))
                        && (List.length (snd entry) <=? List.length (fst entry)))
          table = true ->
  forall s, plain_text s = true ->
            plain_text (fold_left reverse_step table s) = true /\
            List.length s <= List.length (fold_left reverse_step table s).
Proof.
  induction table as [| [rdl_tag html_tag] table IH]; intros T s Ps.
  - split; [exact Ps | simpl; lia].
  - cbn [forallb fst snd] in T. cbn [fold_left reverse_step].
    apply andb_prop in T. destruct T as [T1 T].
    apply andb_prop in T1. destruct T1 as [T1 T3].
    apply andb_prop in T1. destruct T1 as [T1 T2].
    apply Nat.leb_le in T2, T3.
    assert (N : html_tag <> []) by (destruct html_tag; [simpl in T2; lia | discriminate]).
    rewrite (replace_nonempty _ _ _ N).
    destruct (IH T (replace_scan html_tag rdl_tag 0 s)) as [P L].
    + apply plain_text_replace_scan; assumption.
    + split; [exact P |].
      assert (L' := replace_scan_length html_tag rdl_tag (conj T2 T3) s 0). lia.
Qed.

Lemma table_head :
  firstn 30 RDL_TO_HTML = firstn 29 RDL_TO_HTML ++ [([160%N], lit "&nbsp;")].
Proof. reflexivity. Qed.

(** On every text without [&] and without a non-breaking space,
    translating back and forward again gives a longer text: the
    tags that the entries with an empty HTML side inserted stay. *)
Lemma reverse_forward_grows (html : pystr) :
  plain_text html = true ->
  rdl_to_html (html_to_rdl html) = reverse_body html /\
  List.length html + 37 <= List.length (rdl_to_html (html_to_rdl html)).
Proof.
  intro Ph.
  destruct (reverse_steps_plain (firstn 29 RDL_TO_HTML) eq_refl html Ph) as [P L].
  assert (E : fold_left reverse_step (firstn 30 RDL_TO_HTML) html
              = fold_left reverse_step (firstn 29 RDL_TO_HTML) html).
  { rewrite table_head, fold_left_app. cbn [fold_left reverse_step].
    apply replace_absent. apply plain_text_no_amp. exact P. }
  assert (R : rdl_to_html (html_to_rdl html) = reverse_body html).
  { apply reverse_forward. rewrite E. apply plain_text_no_nbsp. exact P. }
  split; [exact R |]. rewrite R. unfold reverse_body. rewrite E.
  set (s0 := fold_left reverse_step (firstn 29 RDL_TO_HTML) html) in *.
  set (s1 := replace [] (lit "<RDL>") s0).
  set (s2 := replace [] (lit "</RDL>") s1).
  set (s3 := replace [] (lit "<TEXT>") s2).
  set (s4 := replace [] (lit "</TEXT>") s3).
  set (s5 := replace [] (lit "<PUSH/>") s4).
  assert (I1 := insert_length (lit "<RDL>") s0).
  assert (I2 := insert_length (lit "</RDL>") s1).
  assert (I3 := insert_length (lit "<TEXT>") s2).
  assert (I4 := insert_length (lit "</TEXT>") s3).
  assert (I5 := insert_length (lit "<PUSH/>") s4).
  assert (I6 := insert_length (lit "<POP/>") s5).
  fold s1 in I1. fold s2 in I2. fold s3 in I3. fold s4 in I4. fold s5 in I5.
  change (List.length (lit "<POP/>")) with 6 in I6.
  change (List.length (lit "<PUSH/>")) with 7 in I5.
  change (List.length (lit "</TEXT>")) with 7 in I4.
  change (List.length (lit "<TEXT>")) with 6 in I3.
  change (List.length (lit "</RDL>")) with 6 in I2.
  change (List.length (lit "<RDL>")) with 5 in I1.
  lia.
Qed.

(** The keys of the dict literal are pairwise distinct, so the list
    has every entry of the dict. *)
Lemma table_keys_distinct : NoDup (map fst RDL_TO_HTML).
Proof.
  vm_compute.
  repeat (constructor;
          [ let H := fresh in
            intro H; repeat (destruct H as [H | H]; [discriminate H |]); exact H
          | ]).
  constructor.
Qed.
End Grows.

(** ** Entity sets and dicts keyed by entities *)

Section EntitySetFacts.
Context {T : Type} `{Entity T}.

Lemma add_fresh (s : EntitySet.t T) (e : T) :
  ~ In (nickname e) (map nickname s) -> EntitySet.add s e = s ++ [e].
Proof.
  induction s as [| x s IH]; simpl; intro N.
  - reflexivity.
  - unfold entity_eqb. destruct (String.eqb_spec (nickname x) (nickname e)) as [E | _].
    + contradiction N. left. exact E.
    + rewrite IH; [reflexivity | intro I; apply N; right; exact I].
Qed.

Lemma add_names (s : EntitySet.t T) (e : T) :
  In (nickname e) (map nickname s) ->
  map nickname (EntitySet.add s e) = map nickname s.
Proof.
  induction s as [| x s IH]; simpl; intro I.
  - contradiction.
  - unfold entity_eqb. destruct (String.eqb_spec (nickname x) (nickname e)) as [E | N].
    + simpl. rewrite E. reflexivity.
    + simpl. rewrite IH; [reflexivity |]. destruct I as [I | I]; [contradiction | exact I].
Qed.

Lemma add_In (s : EntitySet.t T) (e x : T) :
  In x (EntitySet.add s e) -> x = e \/ In x s.
Proof.
  induction s as [| y s IH]; simpl; intro I.
  - destruct I as [<- | []]. left. reflexivity.
  - destruct (entity_eqb y e).
    + destruct I as [<- | I]; [left; reflexivity | right; right; exact I].
    + destruct I as [<- | I]; [right; left; reflexivity |].
      destruct (IH I) as [-> | I']; [left; reflexivity | right; right; exact I'].
Qed.

Lemma add_NoDup (s : EntitySet.t T) (e : T) :
  NoDup (map nickname s) -> NoDup (map nickname (EntitySet.add s e)).
Proof.
  intro N. destruct (in_dec string_dec (nickname e) (map nickname s)) as [I | F].
  - rewrite add_names; assumption.
  - rewrite add_fresh by exact F. rewrite map_app. simpl.
    apply NoDup_app; [exact N | constructor; [intros [] | constructor] |].
    intros n I1 [<- | []]. contradiction.
Qed.

Lemma fold_add_NoDup (l : list T) (s : EntitySet.t T) :
  NoDup (map nickname s) -> NoDup (map nickname (fold_left EntitySet.add l s)).
Proof.
  revert s. induction l as [| e l IH]; simpl; intros s N.
  - exact N.
  - apply IH. apply add_NoDup. exact N.
Qed.

Lemma fold_add_In (l : list T) (s : EntitySet.t T) (x : T) :
  In x (fold_left EntitySet.add l s) -> In x l \/ In x s.
Proof.
  revert s. induction l as [| e l IH]; simpl; intros s I.
  - right. exact I.
  - destruct (IH _ I) as [I' | I'].
    + left. right. exact I'.
    + destruct (add_In _ _ _ I') as [-> | I'']; [left; left; reflexivity | right; exact I''].
Qed.

Lemma fold_add_fresh (l : list T) (s : EntitySet.t T) :
  NoDup (map nickname (s ++ l)) -> fold_left EntitySet.add l s = s ++ l.
Proof.
  revert s. induction l as [| e l IH]; simpl; intros s N.
  - rewrite app_nil_r. reflexivity.
  - assert (F : ~ In (nickname e) (map nickname s)).
    { rewrite map_app in N. simpl in N. apply NoDup_remove_2 in N.
      intro I. apply N. apply in_or_app. left. exact I. }
    rewrite add_fresh by exact F. rewrite IH.
    + rewrite <- app_assoc. reflexivity.
    + rewrite <- app_assoc. exact N.
Qed.

(** An entity set holds one entity per nickname. *)
Lemma make_NoDup (l : list T) : NoDup (map nickname (EntitySet.make l)).
Proof. apply fold_add_NoDup. constructor. Qed.

Lemma make_In (l : list T) (x : T) : In x (EntitySet.make l) -> In x l.
Proof.
  intro I. destruct (fold_add_In _ _ _ I) as [I' | []]. exact I'.
Qed.

Lemma make_distinct (l : list T) :
  NoDup (map nickname l) -> EntitySet.make l = l.
Proof. intro N. apply (fold_add_fresh l []). exact N. Qed.

Lemma get_Some (s : EntitySet.t T) (n : string) (e : T) :
  EntitySet.get s n = Some e -> In e s /\ nickname e = n.
Proof.
  unfold EntitySet.get. intro F. apply find_some in F.
  destruct F as [I E]. apply String.eqb_eq in E. split; assumption.
Qed.

Lemma get_In (s : EntitySet.t T) (e : T) :
  NoDup (map nickname s) -> In e s -> EntitySet.get s (nickname e) = Some e.
Proof.
  unfold EntitySet.get. induction s as [| x s IH]; simpl; intros N I.
  - contradiction.
  - inversion N as [| ? ? Nx Ns]; subst.
    destruct I as [-> | I].
    + rewrite String.eqb_refl. reflexivity.
    + destruct (String.eqb_spec (nickname x) (nickname e)) as [E | _].
      * contradiction Nx. rewrite E. apply in_map. exact I.
      * apply IH; assumption.
Qed.

Lemma get_None (s : EntitySet.t T) (n : string) :
  EntitySet.get s n = None <-> ~ In n (map nickname s).
Proof.
  unfold EntitySet.get. induction s as [| x s IH]; simpl.
  - tauto.
  - destruct (String.eqb_spec (nickname x) n) as [E | N].
    + split; [discriminate | intro F; contradiction F; left; exact E].
    + rewrite IH. tauto.
Qed.

(** A dict comprehension keyed by entities of distinct nicknames
    keeps every pair, in order. *)
Lemma dict_set_fresh {V : Type} (d : list (T * V)) (k : T) (v : V) :
  ~ In (nickname k) (map nickname (map fst d)) ->
  dict_set entity_eqb d k v = d ++ [(k, v)].
Proof.
  induction d as [| [k' v'] d IH]; simpl; intro N.
  - reflexivity.
  - unfold entity_eqb at 1.
    destruct (String.eqb_spec (nickname k') (nickname k)) as [E | _].
    + contradiction N. left. exact E.
    + rewrite IH; [reflexivity | intro I; apply N; right; exact I].
Qed.

Lemma fold_dict_set_fresh {V : Type} (pairs d : list (T * V)) :
  NoDup (map nickname (map fst (d ++ pairs))) ->
  fold_left (fun d kv => dict_set entity_eqb d (fst kv) (snd kv)) pairs d
  = d ++ pairs.
Proof.
  revert d. induction pairs as [| [k v] pairs IH]; simpl; intros d N.
  - rewrite app_nil_r. reflexivity.
  - assert (F : ~ In (nickname k) (map nickname (map fst d))).
    { rewrite !map_app in N. simpl in N. apply NoDup_remove_2 in N.
      intro I. apply N. apply in_or_app. left. exact I. }
    rewrite dict_set_fresh by exact F. rewrite IH.
    + rewrite <- app_assoc. reflexivity.
    + rewrite <- app_assoc. exact N.
Qed.

Lemma dict_of_distinct {V : Type} (pairs : list (T * V)) :
  NoDup (map nickname (map fst pairs)) -> dict_of entity_eqb pairs = pairs.
Proof. intro N. apply (fold_dict_set_fresh pairs []). exact N. Qed.
End EntitySetFacts.

(** ** Loops that may raise *)

Lemma mapM_inr {A B : Type} (f : A -> result B) (l : list A) (m : list B) :
  mapM f l = inr m -> Forall2 (fun a b => f a = inr b) l m.
Proof.
  revert m. induction l as [| a l IH]; simpl; intros m E.
  - inversion E. constructor.
  - apply bind_ret_inv in E. destruct E as (b & Eb & E).
    apply bind_ret_inv in E. destruct E as (bs & Ebs & E).
    inversion E. subst m. constructor; [exact Eb | apply IH; exact Ebs].
Qed.

Lemma mapM_inl {A B : Type} (f : A -> result B) (l : list A) (e : exn) :
  mapM f l = inl e -> exists a, In a l /\ f a = inl e.
Proof.
  induction l as [| a l IH]; simpl; intro E.
  - discriminate.
  - destruct (f a) as [e' | b] eqn:Ea; simpl in E.
    + inversion E. subst e'. exists a. split; [left; reflexivity | exact Ea].
    + destruct (mapM f l) as [e' | bs]; simpl in E; [| discriminate].
      inversion E. subst e'. destruct (IH eq_refl) as (a' & I & Ea').
      exists a'. split; [right; exact I | exact Ea'].
Qed.

(** ** Connections *)

Section Connections.
Variable g : Registry.
Variable self : System.

Lemma jumps_NoDup : NoDup (map nickname (System.jumps g self)).
Proof. apply make_NoDup. Qed.

(** C2, as the code has it: [connections] maps every contained jump,
    in order, to its resolved destination; when the destination of
    a contained jump does not resolve, the call raises that jump's
    error and no jump is left out. *)
Theorem connections_all_or_error :
  match System.connections g self with
  | inr m =>
      map fst m = System.jumps g self /\
      Forall (fun jd => Jump.destination_system g (fst jd) = inr (snd jd)) m
  | inl e =>
      exists j, In j (System.jumps g self) /\ Jump.destination_system g j = inl e
  end.
Proof.
  unfold System.connections.
  destruct (mapM _ (System.jumps g self)) as [e | pairs] eqn:E; simpl.
  - apply mapM_inl in E. destruct E as (j & I & E). exists j. split; [exact I |].
    destruct (Jump.destination_system g j); simpl in E; [| discriminate].
    inversion E. reflexivity.
  - apply mapM_inr in E.
    assert (F : map fst pairs = System.jumps g self /\
                Forall (fun jd => Jump.destination_system g (fst jd) = inr (snd jd))
                       pairs).
    { induction E as [| j p js ps Ej _ IH].
      - split; constructor.
      - destruct IH as [IH1 IH2].
        destruct (Jump.destination_system g j) as [? | d] eqn:Ed;
          simpl in Ej; [discriminate |].
        inversion Ej. subst p. simpl. split.
        + rewrite IH1. reflexivity.
        + constructor; [exact Ed | exact IH2]. }
    rewrite dict_of_distinct; [exact F |].
    destruct F as [F _]. rewrite F. apply jumps_NoDup.
Qed.
End Connections.

(** C2, as stated, fails: the only jump of [li01] leads to a system
    that does not resolve, and [connections] raises instead of
    returning a mapping without that jump. *)
Lemma connections_dangling_raises :
  EntitySet.get (routines.get_systems Sample.dangling) "li05"%string = None /\
  System.jumps Sample.dangling Sample.li01 = [Sample.gate_to_li05] /\
  System.connections Sample.dangling Sample.li01 = raise KeyError /\
  System.connections Sample.dangling Sample.li01 <> ret [].
Proof.
  repeat split. discriminate.
Qed.

(** ** Bases and their owners *)

Section Owners.
Variable g : Registry.

Lemma unique_none {T : Type} (p : T -> bool) (s : EntitySet.t T) :
  (forall e, In e s -> p e = false) -> EntitySet.unique p s = None.
Proof.
  intro F. unfold EntitySet.unique.
  destruct (filter p s) as [| e r] eqn:E; [reflexivity |].
  assert (I : In e (filter p s)) by (rewrite E; left; reflexivity).
  apply filter_In in I. destruct I as [I Pe].
  rewrite (F e I) in Pe. discriminate.
Qed.

Lemma unique_some {T : Type} (p : T -> bool) (s : EntitySet.t T) (e : T) :
  EntitySet.unique p s = Some e -> In e s /\ p e = true.
Proof.
  unfold EntitySet.unique. intro U.
  destruct (filter p s) as [| x [| y r]] eqn:E; try discriminate.
  inversion U. subst x. apply filter_In. rewrite E. left. reflexivity.
Qed.

(** C9: a base whose system holds no BaseSolar for it and that has no
    mission-base entry has no owner, and [owner()] returns [None]
    without looking up any faction. *)
Theorem owner_of_virtual_base (self : Base) (s : System) :
  EntitySet.get (routines.get_systems g) (system self) = Some s ->
  (forall b, In b (System.bases g s) -> base b <> nickname self) ->
  Base.mbase g self = None ->
  Base.solar g self = ret None /\
  Base.has_solar g self = ret false /\
  Base.owner g self = ret None.
Proof.
  intros Es Nb Em.
  assert (S : Base.solar g self = ret None).
  { unfold Base.solar, Base.system_, EntitySet.getitem. rewrite Es. simpl.
    rewrite unique_none; [reflexivity |].
    intros b I. apply String.eqb_neq. apply Nb. exact I. }
  assert (H : Base.has_solar g self = ret false).
  { unfold Base.has_solar. rewrite S. reflexivity. }
  repeat split; [exact S | exact H |].
  unfold Base.owner. rewrite H. simpl. rewrite Em. reflexivity.
Qed.

Lemma has_solar_true (b : Base) :
  Base.has_solar g b = inr true -> exists bs, Base.solar g b = inr (Some bs).
Proof.
  unfold Base.has_solar. intro E.
  destruct (Base.solar g b) as [e | [bs |]]; simpl in E; try discriminate.
  exists bs. reflexivity.
Qed.

Lemma owned_sound (f : Faction) (l r : list Base) :
  Faction.owned g f l = inr r ->
  forall b, In b r ->
    In b l /\ Base.has_solar g b = inr true /\
    exists bs, Base.solar g b = inr (Some bs) /\ reputation bs = nickname f.
Proof.
  revert r. induction l as [| x l IH]; simpl; intros r E b I.
  - inversion E. subst r. contradiction.
  - apply bind_ret_inv in E. destruct E as (h & Eh & E).
    apply bind_ret_inv in E. destruct E as (keep & Ek & E).
    apply bind_ret_inv in E. destruct E as (r' & Er & E).
    inversion E. subst r. clear E.
    assert (Tail : In b r' -> In b (x :: l) /\ Base.has_solar g b = inr true /\
              exists bs, Base.solar g b = inr (Some bs) /\ reputation bs = nickname f).
    { intro I'. destruct (IH _ Er _ I') as (I1 & I2 & I3).
      split; [right; exact I1 | split; assumption]. }
    destruct keep; [| exact (Tail I)].
    destruct I as [<- | I]; [| exact (Tail I)].
    destruct h; [| discriminate].
    split; [left; reflexivity | split; [exact Eh |]].
    destruct (Base.solar g x) as [e | [bs |]]; simpl in Ek; try discriminate.
    exists bs. split; [reflexivity |].
    inversion Ek as [Ek']. apply String.eqb_eq. exact Ek'.
Qed.

(** C10: every base that [Faction.bases] returns is one of the loaded
    bases, has a solar, and that solar's [reputation] is the
    faction's nickname; so a base without a solar is never
    returned. *)
Theorem bases_have_solar (f : Faction) (l : EntitySet.t Base) (b : Base) :
  Faction.bases g f = inr l -> In b l ->
  In b (routines.get_bases g) /\
  Base.has_solar g b = inr true /\
  (exists bs, Base.solar g b = inr (Some bs) /\ reputation bs = nickname f) /\
  Base.solar g b <> inr None.
Proof.
  unfold Faction.bases. intros E I.
  apply bind_ret_inv in E. destruct E as (r & Er & E).
  inversion E. subst l. apply make_In in I.
  destruct (owned_sound _ _ _ Er _ I) as (I1 & I2 & bs & I3 & I4).
  repeat split; [exact I1 | exact I2 | exists bs; split; assumption |].
  rewrite I3. discriminate.
Qed.

Lemma owned_total (f : Faction) (l : list Base) :
  (forall b, In b l ->
     exists s, EntitySet.get (routines.get_systems g) (system b) = Some s) ->
  exists r, Faction.owned g f l = inr r.
Proof.
  induction l as [| x l IH]; simpl; intro R.
  - exists []. reflexivity.
  - destruct (R x (or_introl eq_refl)) as [s Es].
    destruct IH as [r Er]; [intros b I; apply R; right; exact I |].
    unfold Base.has_solar, Base.solar, Base.system_, EntitySet.getitem.
    rewrite Es. simpl. rewrite Er.
    destruct (EntitySet.unique _ _) as [bs |]; simpl; eexists; reflexivity.
Qed.

(** [Faction.bases] returns whenever the system of every loaded base
    resolves. *)
Lemma bases_total (f : Faction) :
  (forall b, In b (routines.get_bases g) ->
     exists s, EntitySet.get (routines.get_systems g) (system b) = Some s) ->
  exists l, Faction.bases g f = inr l.
Proof.
  intro R. unfold Faction.bases.
  destruct (owned_total f _ R) as [r Er]. rewrite Er. simpl. eexists. reflexivity.
Qed.
End Owners.

(** The two theorems above, in the sample universe. *)
Lemma owner_of_virtual_base_witness :
  Base.owner Sample.sirius Sample.virtual_base = ret None.
Proof.
  apply (owner_of_virtual_base Sample.sirius Sample.virtual_base Sample.li01).
  - reflexivity.
  - intros b I. vm_compute in I. destruct I as [<- | []]. discriminate.
  - reflexivity.
Defined.

Lemma bases_have_solar_witness :
  Faction.bases Sample.sirius Sample.li_n_grp = inr [Sample.manhattan] /\
  Base.has_solar Sample.sirius Sample.manhattan = inr true.
Proof.
  split; [reflexivity |].
  apply (bases_have_solar Sample.sirius Sample.li_n_grp [Sample.manhattan]
                          Sample.manhattan).
  - reflexivity.
  - left. reflexivity.
Defined.

(** ** Docking *)

Section Docking.
Variable g : Registry.

Lemma entity_eqb_trans_l {T : Type} `{Entity T} (a b c : T) :
  entity_eqb a b = true -> entity_eqb a c = entity_eqb b c.
Proof.
  unfold entity_eqb. intro E. apply String.eqb_eq in E. rewrite E. reflexivity.
Qed.

Lemma dict_get_set {T V : Type} `{Entity T} (d : list (T * V)) (k k' : T) (v : V) :
  dict_get entity_eqb (dict_set entity_eqb d k v) k'
  = if entity_eqb k k' then Some v else dict_get entity_eqb d k'.
Proof.
  induction d as [| [x w] d IH]; simpl.
  - reflexivity.
  - destruct (entity_eqb x k) eqn:Exk; simpl.
    + rewrite (entity_eqb_trans_l _ _ k' Exk).
      destruct (entity_eqb k k'); reflexivity.
    + rewrite IH. destruct (entity_eqb x k') eqn:Exk'; [| reflexivity].
      destruct (entity_eqb k k') eqn:Ekk'; [| reflexivity].
      unfold entity_eqb in *. apply String.eqb_eq in Exk', Ekk'.
      rewrite Exk', Ekk', String.eqb_refl in Exk. discriminate.
Qed.

Lemma rep_sheet_fold (other : Faction) (l : list (float * string))
      (d : list (Faction * float)) :
  In other (routines.get_factions g) ->
  dict_get entity_eqb
    (fold_left (fun d kv => dict_set entity_eqb d (fst kv) (snd kv))
       (flat_map (fun rf => match EntitySet.get (routines.get_factions g) (snd rf) with
                            | Some f => [(f, fst rf)]
                            | None => []
                            end) l) d)
    other
  = fold_left (fun acc rf => if String.eqb (snd rf) (nickname other)
                             then Some (fst rf) else acc)
              l (dict_get entity_eqb d other).
Proof.
  intro I. revert d. induction l as [| [r n] l IH]; intro d; simpl.
  - reflexivity.
  - rewrite fold_left_app, IH. f_equal.
    destruct (EntitySet.get (routines.get_factions g) n) as [f |] eqn:G; simpl.
    + apply get_Some in G. destruct G as [_ G]. rewrite dict_get_set.
      unfold entity_eqb. rewrite G. reflexivity.
    + destruct (String.eqb_spec n (nickname other)) as [-> | _]; [| reflexivity].
      rewrite (get_In (routines.get_factions g) other (make_NoDup _) I) in G.
      discriminate.
Qed.

(** The sheet's entry for a loaded faction is what the raw vector
    gives for it. *)
Lemma rep_sheet_lookup (self other : Faction) :
  In other (routines.get_factions g) ->
  dict_get entity_eqb (Faction.rep_sheet g self) other
  = Faction.reputation_toward self other.
Proof.
  intro I. unfold Faction.rep_sheet, Faction.reputation_toward, dict_of.
  rewrite (rep_sheet_fold other (rep self) [] I). reflexivity.
Qed.


End Docking.


(** ** Trade lanes *)

Section Lanes.
Variable g : Registry.
Variable self : System.

Let rings := System.rings g self.

Lemma rings_NoDup : NoDup (map nickname rings).
Proof. apply make_NoDup. Qed.

Lemma filter_names_NoDup {T : Type} `{Entity T} (p : T -> bool) (l : list T) :
  NoDup (map nickname l) -> NoDup (map nickname (filter p l)).
Proof.
  induction l as [| x l IH]; simpl; intro N.
  - constructor.
  - inversion N as [| ? ? Nx Nl]; subst.
    destruct (p x); simpl; [| exact (IH Nl)].
    constructor; [| exact (IH Nl)].
    intro I. apply Nx. apply in_map_iff in I. destruct I as (y & Ey & Iy).
    apply filter_In in Iy. apply in_map_iff. exists y. tauto.
Qed.

Lemma filter_Permutation {T : Type} (p : T -> bool) (l l' : list T) :
  Permutation l l' -> Permutation (filter p l) (filter p l').
Proof.
  induction 1 as [| x l l' _ IH | x y l | l l' l'' _ IH1 _ IH2]; simpl.
  - constructor.
  - destruct (p x); [constructor |]; exact IH.
  - destruct (p x), (p y); try apply Permutation_refl. constructor.
  - exact (Permutation_trans IH1 IH2).
Qed.

(** Enough fuel follows a chain that ends to its end. *)
Lemma follow_linked (r last : TradeLaneRing) (path : list TradeLaneRing) :
  linked rings r path last -> chain_ends rings last ->
  forall fuel, List.length path < fuel -> System.follow fuel rings r = Some path.
Proof.
  induction 1 as [r | r r' last n path En Nn Gn _ IH]; intros Z fuel L.
  - destruct fuel as [| fuel]; [inversion L |]. simpl.
    unfold chain_ends in Z. destruct (next_ring r) as [n |]; [| reflexivity].
    destruct Z as [-> | Z]; [reflexivity |].
    rewrite Z. destruct (String.eqb n ""); reflexivity.
  - destruct fuel as [| fuel]; [inversion L |]. simpl in *.
    rewrite En. apply String.eqb_neq in Nn. rewrite Nn, Gn.
    rewrite (IH Z fuel); [reflexivity | lia].
Qed.

Lemma all_some_map {A B : Type} (f : A -> option B) (h : A -> B) (l : list A) :
  (forall a, In a l -> f a = Some (h a)) ->
  System.all_some (map f l) = Some (map h l).
Proof.
  induction l as [| a l IH]; simpl; intro F.
  - reflexivity.
  - rewrite (F a (or_introl eq_refl)), IH; [reflexivity |].
    intros b I. apply F. right. exact I.
Qed.


(** [lanes] is one chain per ring without a [prev_ring], in the order
    of the rings. *)
Lemma lanes_heads (fuel : nat) :
  System.lanes fuel g self
  = System.all_some
      (map (fun h => option_map (cons h) (System.follow fuel rings h))
           (filter is_head rings)).
Proof.
  unfold System.lanes. fold rings. change (fun r => match prev_ring r with
                                                   | None => true
                                                   | Some _ => false
                                                   end) with is_head.
  rewrite dict_of_distinct.
  - rewrite map_map. reflexivity.
  - rewrite (map_map (fun r => (r, @nil TradeLaneRing)) fst). simpl.
    rewrite map_id. apply filter_names_NoDup. apply rings_NoDup.
Qed.
End Lanes.

(** C5: a system whose trade lane rings are R1, R2 and R3 (in any
    order among its contents), linked R1 -> R2 -> R3, has exactly one
    lane, [R1; R2; R3].  Three iterations of the loop suffice. *)
Theorem lanes_three_rings (g : Registry) (self : System)
        (r1 r2 r3 : TradeLaneRing) (fuel : nat) :
  Permutation (System.rings g self) [r1; r2; r3] ->
  prev_ring r1 = None -> next_ring r1 = Some (nickname r2) ->
  prev_ring r2 = Some (nickname r1) -> next_ring r2 = Some (nickname r3) ->
  prev_ring r3 = Some (nickname r2) -> next_ring r3 = None ->
  nickname r2 <> EmptyString -> nickname r3 <> EmptyString ->
  3 <= fuel ->
  System.lanes fuel g self = Some [[r1; r2; r3]].
Proof.
  intros P P1 N1 P2 N2 P3 N3 E2 E3 F.
  assert (D := rings_NoDup g self).
  assert (I2 : In r2 (System.rings g self)).
  { apply (Permutation_in _ (Permutation_sym P)). simpl. tauto. }
  assert (I3 : In r3 (System.rings g self)).
  { apply (Permutation_in _ (Permutation_sym P)). simpl. tauto. }
  assert (H : filter is_head (System.rings g self) = [r1]).
  { apply Permutation_length_1_inv. apply Permutation_sym.
    replace [r1] with (filter is_head [r1; r2; r3]).
    - apply filter_Permutation. exact P.
    - simpl. unfold is_head. rewrite P1, P2, P3. reflexivity. }
  assert (L : linked (System.rings g self) r1 [r2; r3] r3).
  { apply linked_next with (n := nickname r2);
      [exact N1 | exact E2 | exact (get_In _ _ D I2) |].
    apply linked_next with (n := nickname r3);
      [exact N2 | exact E3 | exact (get_In _ _ D I3) |].
    apply linked_end. }
  rewrite lanes_heads, H. simpl.
  rewrite (follow_linked g self r1 r3 [r2; r3] L).
  - reflexivity.
  - unfold chain_ends. rewrite N3. exact I.
  - simpl. lia.
Qed.

Lemma lanes_three_rings_witness :
  System.lanes 3 Sample.sirius Sample.li01
  = Some [[Sample.ring_1; Sample.ring_2; Sample.ring_3]].
Proof.
  apply (lanes_three_rings Sample.sirius Sample.li01
                           Sample.ring_1 Sample.ring_2 Sample.ring_3 3);
    try reflexivity; discriminate.
Defined.

(** ** What the queries assign *)

Section Mutation.
Variable g : Registry.

Lemma normalize_idem (l : Loadout) :
  Loadout.normalize (Loadout.normalize l) = Loadout.normalize l.
Proof.
  destruct l as [n a [| [nick | nick amount] | c]]; try reflexivity.
  destruct (String.eqb nick "") eqn:E;
    unfold Loadout.normalize; simpl; rewrite E; simpl; [rewrite E |]; reflexivity.
Qed.

Lemma normalize_cargo (l : Loadout) :
  cargo (Loadout.normalize l)
  = if Loadout.truthy (cargo l)
    then match cargo l with CargoOne i => CargoList [i] | c => c end
    else cargo l.
Proof.
  destruct l as [n a [| [nick | nick amount] | [| i c]]]; try reflexivity.
  unfold Loadout.normalize. simpl. destruct (String.eqb nick ""); simpl; reflexivity.
Qed.

Lemma normalize_rest (l : Loadout) :
  loadout_nickname (Loadout.normalize l) = loadout_nickname l /\
  loadout_archetype (Loadout.normalize l) = loadout_archetype l.
Proof.
  destruct l as [n a [| [nick | nick amount] | c]]; try (split; reflexivity).
  unfold Loadout.normalize. simpl. destruct (String.eqb nick ""); simpl; split; reflexivity.
Qed.

Lemma wrap_idem (npc : NPC) : Base.wrap (Base.wrap npc) = Base.wrap npc.
Proof. destruct npc as [n a [| t | l]]; reflexivity. Qed.

Lemma wrap_truthy (npc : NPC) :
  Base.truthy (rumor npc) = true -> Base.truthy (rumor (Base.wrap npc)) = true.
Proof. destruct npc as [n a [| t | l]]; simpl; trivial. Qed.

Lemma wrap_ids (npc : NPC) : Base.rumor_ids (Base.wrap npc) = Base.rumor_ids npc.
Proof. destruct npc as [n a [| t | l]]; reflexivity. Qed.

Lemma wrap_wrapped (npc : NPC) : npc_wrapped npc (Base.wrap npc).
Proof.
  destruct npc as [n a [| t | l]]; repeat split; try (left; reflexivity).
  right. exists t. split; reflexivity.
Qed.

Lemma npc_wrapped_refl (npc : NPC) : npc_wrapped npc npc.
Proof. repeat split. left. reflexivity. Qed.

Lemma Forall2_refl {A : Type} (R : A -> A -> Prop) (l : list A) :
  (forall a, R a a) -> Forall2 R l l.
Proof. intro F. induction l; constructor; auto. Qed.

(** The loop changes the NPC records by wrapping only. *)
Lemma rumors_loop_wrapped (lookup : Z -> string) (l : list NPC)
      (acc : list (Faction * list string)) :
  Forall2 npc_wrapped l (fst (Base.rumors_loop g lookup l acc)).
Proof.
  revert acc. induction l as [| npc l IH]; intro acc; simpl.
  - constructor.
  - destruct (Base.truthy (rumor npc)).
    + destruct (EntitySet.getitem _ _) as [e | f]; simpl.
      * constructor; [apply wrap_wrapped | apply Forall2_refl, npc_wrapped_refl].
      * specialize (IH (Base.dict_update acc f
                          (map lookup (Base.rumor_ids (Base.wrap npc))))).
        destruct (Base.rumors_loop g lookup l _) as [rest r]. simpl in *.
        constructor; [apply wrap_wrapped | exact IH].
    + specialize (IH acc).
      destruct (Base.rumors_loop g lookup l acc) as [rest r]. simpl in *.
      constructor; [apply npc_wrapped_refl | exact IH].
Qed.

(** Running the loop again on the records it left changes nothing
    and gives the same result. *)
Lemma rumors_loop_idem (lookup : Z -> string) (l : list NPC)
      (acc : list (Faction * list string)) :
  Base.rumors_loop g lookup (fst (Base.rumors_loop g lookup l acc)) acc
  = Base.rumors_loop g lookup l acc.
Proof.
  revert acc. induction l as [| npc l IH]; intro acc; simpl.
  - reflexivity.
  - destruct (Base.truthy (rumor npc)) eqn:Et.
    + destruct (EntitySet.getitem (routines.get_factions g)
                  (affiliation (Base.wrap npc))) as [e | f] eqn:Ef.
      * simpl. rewrite (wrap_truthy _ Et), wrap_idem, Ef. reflexivity.
      * specialize (IH (Base.dict_update acc f
                          (map lookup (Base.rumor_ids (Base.wrap npc))))).
        destruct (Base.rumors_loop g lookup l _) as [rest r] eqn:El.
        simpl in *. rewrite (wrap_truthy _ Et), wrap_idem, Ef, IH. reflexivity.
    + specialize (IH acc).
      destruct (Base.rumors_loop g lookup l acc) as [rest r] eqn:El.
      simpl in *. rewrite Et, IH. reflexivity.
Qed.

Lemma rumors_loop_factions (m : list (string * MBase)) (lookup : Z -> string)
      (l : list NPC) (acc : list (Faction * list string)) :
  Base.rumors_loop (Base.set_mbases g m) lookup l acc
  = Base.rumors_loop g lookup l acc.
Proof.
  revert acc. induction l as [| npc l IH]; intro acc; simpl.
  - reflexivity.
  - destruct (Base.truthy (rumor npc)).
    + change (routines.get_factions (Base.set_mbases g m))
        with (routines.get_factions g).
      destruct (EntitySet.getitem _ _); [reflexivity |]. rewrite IH. reflexivity.
    + rewrite IH. reflexivity.
Qed.

Lemma dict_get_set_same {V : Type} (d : list (string * V)) (k : string) (v : V) :
  dict_get String.eqb (dict_set String.eqb d k v) k = Some v.
Proof.
  induction d as [| [k' v'] d IH]; simpl.
  - rewrite String.eqb_refl. reflexivity.
  - destruct (String.eqb k' k) eqn:E; simpl; rewrite E; [reflexivity | exact IH].
Qed.

Lemma dict_set_twice {V : Type} (d : list (string * V)) (k : string) (v v' : V) :
  dict_set String.eqb (dict_set String.eqb d k v) k v' = dict_set String.eqb d k v'.
Proof.
  induction d as [| [k' w] d IH]; simpl.
  - rewrite String.eqb_refl. reflexivity.
  - destruct (String.eqb k' k) eqn:E; simpl; rewrite E; [reflexivity |].
    rewrite IH. reflexivity.
Qed.

Lemma dict_set_related {V : Type} (R : string * V -> string * V -> Prop)
      (d : list (string * V)) (k : string) (v v' : V) :
  (forall x, R x x) -> (forall k', R (k', v) (k', v')) ->
  dict_get String.eqb d k = Some v ->
  Forall2 R d (dict_set String.eqb d k v').
Proof.
  intros Rr Rk. induction d as [| [k' w] d IH]; simpl; intro G.
  - discriminate.
  - destruct (String.eqb k' k).
    + inversion G. subst w. constructor; [apply Rk | apply Forall2_refl, Rr].
    + constructor; [apply Rr | exact (IH G)].
Qed.
End Mutation.

(** The rumors of Manhattan: the call returns the rumor texts by
    faction, and leaves the bartender's single rumor in a list. *)
Example rumors_of_manhattan :
  Base.rumors Sample.sirius_missions Sample.rumor_text Sample.manhattan
  = (Base.set_mbases Sample.sirius
       [("li01_01_base"%string,
         Base.set_npcs Sample.manhattan_mbase
           [Base.wrap Sample.bartender; Sample.trader; Sample.dealer])],
     ret [(Sample.li_n_grp, ["The Navy is hiring."%string]);
          (Sample.fc_or_grp, ["The Order does not exist."%string;
                              "The Navy is hiring."%string])]).
Proof. reflexivity. Qed.

(** C4, as stated, fails: [loot()] on a loadout whose cargo is one
    tuple assigns the loadout's [cargo] attribute. *)
Lemma loot_assigns_cargo :
  cargo Sample.single_loadout = CargoOne (Pair "ammo_01" 3) /\
  cargo (fst (Loadout.loot Sample.armory Sample.single_loadout))
  = CargoList [Pair "ammo_01" 3] /\
  fst (Loadout.loot Sample.armory Sample.single_loadout) <> Sample.single_loadout.
Proof.
  repeat split. discriminate.
Qed.

(** C4, as the code has it.  [loot()] assigns nothing but the
    loadout's [cargo], and that only to put a single true item in a
    list; [rumors()] changes nothing of the loaded data but the
    rumor fields of mission NPC records, and those only to put a
    single tuple in a list.  Both rewrites are idempotent: a second
    call changes nothing more and returns or raises the same. *)
Theorem queries_assign_wrapping_only
        (g : Registry) (lookup : Z -> string) (l : Loadout) (b : Base) :
  (let (l', r) := Loadout.loot g l in
   loadout_nickname l' = loadout_nickname l /\
   loadout_archetype l' = loadout_archetype l /\
   cargo l' = (if Loadout.truthy (cargo l)
               then match cargo l with CargoOne i => CargoList [i] | c => c end
               else cargo l) /\
   Loadout.loot g l' = (l', r)) /\
  (let (g', r) := Base.rumors g lookup b in
   reg_systems g' = reg_systems g /\
   reg_contents g' = reg_contents g /\
   reg_bases g' = reg_bases g /\
   reg_factions g' = reg_factions g /\
   reg_equipment g' = reg_equipment g /\
   Forall2 mbase_wrapped (reg_mbases g) (reg_mbases g') /\
   Base.rumors g' lookup b = (g', r)).
Proof.
  split.
  - unfold Loadout.loot.
    destruct (normalize_rest l) as [En Ea].
    repeat split; try assumption.
    + apply normalize_cargo.
    + rewrite normalize_idem. reflexivity.
  - assert (Rr : forall x : string * MBase, mbase_wrapped x x).
    { intro x. repeat split. apply Forall2_refl, npc_wrapped_refl. }
    unfold Base.rumors.
    destruct (Base.mbase g b) as [m |] eqn:Em.
    + assert (W := rumors_loop_wrapped g lookup (npcs m) []).
      assert (Idem := rumors_loop_idem g lookup (npcs m) []).
      destruct (Base.rumors_loop g lookup (npcs m) []) as [npcs' r] eqn:El.
      simpl in W, Idem. repeat split.
      * simpl. apply dict_set_related with (v := m).
        -- exact Rr.
        -- intro k'. repeat split. exact W.
        -- exact Em.
      * unfold Base.mbase, missions.get_mbases. simpl reg_mbases.
        rewrite dict_get_set_same. simpl npcs.
        rewrite rumors_loop_factions, Idem, dict_set_twice. reflexivity.
    + repeat split.
      * apply Forall2_refl. exact Rr.
      * rewrite Em. reflexivity.
Qed.

(** ** Loot *)

Section Loot.
Context {V : Type}.

Lemma dict_set_names_In (d : list (Equipment * V)) (k : Equipment) (v : V) (n : string) :
  In n (map nickname (map fst (dict_set entity_eqb d k v))) ->
  In n (map nickname (map fst d)) \/ n = nickname k.
Proof.
  induction d as [| [k' v'] d IH]; simpl.
  - intros [<- | []]. right. reflexivity.
  - destruct (entity_eqb k' k); simpl.
    + intros [<- | I]; left; [left; reflexivity | right; exact I].
    + intros [<- | I]; [left; left; reflexivity |].
      destruct (IH I) as [I' | ->]; [left; right; exact I' | right; reflexivity].
Qed.

Lemma dict_set_names_NoDup (d : list (Equipment * V)) (k : Equipment) (v : V) :
  NoDup (map nickname (map fst d)) ->
  NoDup (map nickname (map fst (dict_set entity_eqb d k v))).
Proof.
  induction d as [| [k' v'] d IH]; simpl; intro N.
  - constructor; [intros [] | constructor].
  - inversion N as [| ? ? Nk Nd]; subst.
    destruct (entity_eqb k' k) eqn:E; simpl.
    + constructor; assumption.
    + constructor; [| exact (IH Nd)].
      intro I. apply dict_set_names_In in I. destruct I as [I | I].
      * contradiction.
      * unfold entity_eqb in E. apply String.eqb_neq in E. contradiction.
Qed.

(** The dict built from a list of pairs has one key per nickname. *)
Lemma dict_of_names_NoDup (pairs : list (Equipment * V)) :
  NoDup (map nickname (map fst (dict_of entity_eqb pairs))).
Proof.
  unfold dict_of.
  assert (G : forall d, NoDup (map nickname (map fst d)) ->
                NoDup (map nickname (map fst
                  (fold_left (fun d kv => dict_set entity_eqb d (fst kv) (snd kv))
                             pairs d)))).
  { induction pairs as [| [k v] pairs IH]; simpl; intros d N.
    - exact N.
    - apply IH. apply dict_set_names_NoDup. exact N. }
  apply G. constructor.
Qed.

Lemma dict_set_present (done todo : list (Equipment * V)) (k : Equipment) (v v' : V) :
  ~ In (nickname k) (map nickname (map fst done)) ->
  dict_set entity_eqb (done ++ (k, v) :: todo) k v' = done ++ (k, v') :: todo.
Proof.
  induction done as [| [k' w] done IH]; simpl; intro N.
  - unfold entity_eqb. rewrite String.eqb_refl. reflexivity.
  - unfold entity_eqb at 1.
    destruct (String.eqb_spec (nickname k') (nickname k)) as [E | _].
    + contradiction N. left. exact E.
    + rewrite IH; [reflexivity | intro I; apply N; right; exact I].
Qed.
End Loot.

(** The loop [for e in default] gives every key that occurs more than
    once in [result] its number of occurrences, and leaves the value
    of the others. *)
Lemma recount_spec (result default : list (Equipment * Z)) :
  NoDup (map nickname (map fst default)) ->
  Loadout.recount result default
  = map (fun kv => (fst kv,
                    if (1 <? Loadout.count result (fst kv))%Z
                    then Loadout.count result (fst kv)
                    else snd kv))
        default.
Proof.
  unfold Loadout.recount.
  assert (G : forall todo done,
             NoDup (map nickname (map fst (done ++ todo))) ->
             fold_left (fun d e => if (1 <? Loadout.count result e)%Z
                                   then dict_set entity_eqb d e (Loadout.count result e)
                                   else d)
                       (map fst todo) (done ++ todo)
             = done ++ map (fun kv => (fst kv,
                                       if (1 <? Loadout.count result (fst kv))%Z
                                       then Loadout.count result (fst kv)
                                       else snd kv)) todo).
  { induction todo as [| [k v] todo IH]; intros done N; simpl.
    - reflexivity.
    - assert (F : ~ In (nickname k) (map nickname (map fst done))).
      { rewrite !map_app in N. simpl in N. apply NoDup_remove_2 in N.
        intro I. apply N. apply in_or_app. left. exact I. }
      assert (N' : forall w, NoDup (map nickname (map fst ((done ++ [(k, w)]) ++ todo)))).
      { intro w. rewrite <- app_assoc. simpl.
        rewrite !map_app in *. simpl in *. exact N. }
      destruct (1 <? Loadout.count result k)%Z.
      + rewrite dict_set_present by exact F.
        change (done ++ (k, Loadout.count result k) :: todo)
          with (done ++ [(k, Loadout.count result k)] ++ todo).
        rewrite app_assoc, IH by apply N'. rewrite <- app_assoc. reflexivity.
      + change (done ++ (k, v) :: todo) with (done ++ [(k, v)] ++ todo).
        rewrite app_assoc, IH by apply N'. rewrite <- app_assoc. reflexivity. }
  intro N. apply (G default []). exact N.
Qed.

(** What [loot] returns: the dict of the resolved pairs (keys in
    first-seen order, each with its last amount), with the amount of
    every key that occurs more than once replaced by its number of
    occurrences. *)
Lemma loot_spec (g : Registry) (self : Loadout) :
  snd (Loadout.loot g self)
  = (result <- Loadout.resolve g (cargo (Loadout.normalize self)) ;;
     ret (map (fun kv => (fst kv,
                          if (1 <? Loadout.count result (fst kv))%Z
                          then Loadout.count result (fst kv)
                          else snd kv))
              (dict_of entity_eqb result))).
Proof.
  unfold Loadout.loot. simpl.
  destruct (Loadout.resolve g _) as [e | result]; simpl; [reflexivity |].
  rewrite recount_spec by apply dict_of_names_NoDup. reflexivity.
Qed.

(** C1, evaluated at the specification's example: the cargo
    [[("ammo_01", 3), ("ammo_01", 2), "shield_01"]] gives ammo_01 the
    amount 2, the number of its occurrences, not the sum 5. *)
Theorem loot_of_duplicates :
  Loadout.loot Sample.armory Sample.wreck_loadout
  = (Sample.wreck_loadout, ret [(Sample.ammo_01, 2%Z); (Sample.shield_01, 1%Z)]) /\
  snd (Loadout.loot Sample.armory Sample.wreck_loadout)
  <> ret [(Sample.ammo_01, 5%Z); (Sample.shield_01, 1%Z)].
Proof.
  split; [reflexivity | discriminate].
Qed.

Section LootUnits.
Variable result : list (Equipment * Z).

Lemma dict_set_In (d : list (Equipment * Z)) (k0 k : Equipment) (v0 v : Z) :
  In (k, v) (dict_set entity_eqb d k0 v0) ->
  In (k, v) d \/ (v = v0 /\ nickname k = nickname k0).
Proof.
  induction d as [| [k' v'] d IH]; simpl.
  - intros [E | []]. inversion E. right. split; reflexivity.
  - destruct (entity_eqb k' k0) eqn:E; simpl.
    + intros [E' | I].
      * inversion E'. subst k' v. right. split; [reflexivity |].
        apply String.eqb_eq. exact E.
      * left. right. exact I.
    + intros [E' | I]; [left; left; exact E' |].
      destruct (IH I) as [I' | R]; [left; right; exact I' | right; exact R].
Qed.

(** Every pair of the dict has an amount and a nickname of [result]. *)
Lemma dict_of_In (k : Equipment) (v : Z) :
  In (k, v) (dict_of entity_eqb result) ->
  In v (map snd result) /\ In (nickname k) (map nickname (map fst result)).
Proof.
  unfold dict_of.
  assert (G : forall pairs d,
             In (k, v) (fold_left (fun d kv => dict_set entity_eqb d (fst kv) (snd kv))
                                  pairs d) ->
             In (k, v) d \/
             (In v (map snd pairs) /\ In (nickname k) (map nickname (map fst pairs)))).
  { induction pairs as [| [k0 v0] pairs IH]; simpl; intros d I.
    - left. exact I.
    - destruct (IH _ I) as [I' | [I1 I2]].
      + destruct (dict_set_In _ _ _ _ _ I') as [I'' | [-> E]].
        * left. exact I''.
        * right. split; left; [reflexivity | symmetry; exact E].
      + right. split; right; assumption. }
  intro I. destruct (G _ _ I) as [[] | R]. exact R.
Qed.

Lemma count_positive (k : Equipment) :
  In (nickname k) (map nickname (map fst result)) ->
  (1 <= Loadout.count result k)%Z.
Proof.
  unfold Loadout.count. induction (map fst result) as [| x l IH]; intro I.
  - destruct I.
  - cbn [filter]. unfold entity_eqb at 1.
    destruct (String.eqb_spec (nickname x) (nickname k)) as [_ | N].
    + cbn [List.length]. rewrite Nat2Z.inj_succ. lia.
    + destruct I as [E | I]; [contradiction | exact (IH I)].
Qed.

Lemma total_of_units (k : Equipment) :
  Forall (fun p => snd p = 1%Z) result ->
  Loadout.total result k = Loadout.count result k.
Proof.
  unfold Loadout.total, Loadout.count.
  induction 1 as [| [x v] l Ev _ IH].
  - reflexivity.
  - simpl in Ev. subst v. cbn [filter map fst].
    destruct (entity_eqb x k); [| exact IH].
    cbn [map snd fold_right List.length]. rewrite IH, Nat2Z.inj_succ. lia.
Qed.

(** When every amount is 1, what [loot] stores for a nickname is the
    sum of its amounts: counting and summing agree there. *)
Lemma recount_of_units :
  Forall (fun p => snd p = 1%Z) result ->
  Forall (fun kv => snd kv = Loadout.total result (fst kv))
         (Loadout.recount result (dict_of entity_eqb result)).
Proof.
  intro U. rewrite recount_spec by apply dict_of_names_NoDup.
  apply Forall_forall. intros [k v] I. apply in_map_iff in I.
  destruct I as ([k' v'] & E & I). simpl in E. inversion E. subst k' v. clear E.
  simpl. rewrite (total_of_units k U).
  destruct (1 <? Loadout.count result k)%Z eqn:C; [reflexivity |].
  apply dict_of_In in I. destruct I as [Iv Ik].
  apply count_positive in Ik. apply Z.ltb_ge in C.
  rewrite Forall_forall in U. apply in_map_iff in Iv.
  destruct Iv as (p & Ep & Ip). rewrite <- Ep, (U p Ip). lia.
Qed.
End LootUnits.

(** * Further properties *)

(** ** What the forward translation leaves *)

Section Forward.
Import Interface.

Lemma no_nbsp_replace_scan (old new : pystr) :
  no_nbsp new = true ->
  forall s skip, no_nbsp s = true -> no_nbsp (replace_scan old new skip s) = true.
Proof.
  intros Pn s. unfold no_nbsp in *.
  induction s as [| c s IH]; intros skip Ps; simpl.
  - reflexivity.
  - simpl in Ps. apply andb_prop in Ps. destruct Ps as [Pc Ps].
    destruct skip as [| k]; [| exact (IH k Ps)].
    destruct (starts_with old (c :: s)).
    + rewrite forallb_app, Pn. exact (IH _ Ps).
    + simpl. rewrite Pc. exact (IH 0 Ps).
Qed.

Lemma no_nbsp_replace (old new s : pystr) :
  no_nbsp new = true -> no_nbsp s = true -> no_nbsp (replace old new s) = true.
Proof.
  intros Pn Ps. destruct old as [| a old].
  - apply no_nbsp_insert; assumption.
  - apply no_nbsp_replace_scan; assumption.
Qed.

(** Replacing the non-breaking space leaves none. *)
Lemma nbsp_replaced (new : pystr) :
  no_nbsp new = true ->
  forall s skip, no_nbsp (replace_scan [160%N] new skip s) = true.
Proof.
  intros Pn s. unfold no_nbsp in *.
  induction s as [| c s IH]; intro skip.
  - reflexivity.
  - cbn [replace_scan]. destruct skip as [| k]; [| exact (IH k)].
    cbn [starts_with]. rewrite andb_true_r.
    destruct (N.eqb 160 c) eqn:E.
    + rewrite forallb_app, Pn. exact (IH _).
    + cbn [forallb]. rewrite N.eqb_sym, E. exact (IH 0).
Qed.

Lemma forward_no_nbsp (table : list (pystr * pystr)) (s : pystr) :
  forallb (fun entry => no_nbsp (snd entry)) table = true ->
  no_nbsp s = true ->
  no_nbsp (fold_left (fun result '(rdl_tag, html_tag) =>
                        replace rdl_tag html_tag result) table s) = true.
Proof.
  revert s. induction table as [| [rdl_tag html_tag] table IH]; intros s T Ps.
  - exact Ps.
  - cbn [forallb snd] in T. apply andb_prop in T. destruct T as [T1 T].
    cbn [fold_left]. apply IH; [exact T |]. apply no_nbsp_replace; assumption.
Qed.

Lemma table_around_nbsp :
  RDL_TO_HTML
  = firstn 29 RDL_TO_HTML ++ ([160%N], lit "&nbsp;") :: skipn 30 RDL_TO_HTML.
Proof. reflexivity. Qed.

(** X1: no output of the forward translation holds a non-breaking
    space: every one is written [&nbsp;], and no later entry of the
    table brings one back. *)
Theorem rdl_to_html_no_nbsp (rdl : pystr) : no_nbsp (rdl_to_html rdl) = true.
Proof.
  unfold rdl_to_html. rewrite table_around_nbsp, fold_left_app.
  cbn [fold_left]. apply forward_no_nbsp; [reflexivity |].
  apply nbsp_replaced. reflexivity.
Qed.
End Forward.

(** ** Text without tags *)

Section TagFree.
Import Interface.
Import Plaintext.

Lemma tag_free_head (c : N) (s : pystr) :
  tag_free (c :: s) = true ->
  N.eqb c 60 = false /\ N.eqb c 160 = false /\ tag_free s = true.
Proof.
  unfold tag_free. cbn [forallb]. intro T.
  apply andb_prop in T. destruct T as [Tc Ts].
  apply andb_prop in Tc. destruct Tc as [T1 T2].
  apply negb_true_iff in T1, T2. tauto.
Qed.

Lemma key_head_mismatch (p : pystr) (c : N) (s : pystr) :
  key_head p = true -> N.eqb c 60 = false -> N.eqb c 160 = false ->
  starts_with p (c :: s) = false.
Proof.
  destruct p as [| a p]; [discriminate |]. cbn [key_head starts_with].
  intros K E1 E2. destruct (N.eqb_spec a c) as [-> | _]; [| reflexivity].
  rewrite E1, E2 in K. discriminate.
Qed.

(** A key cannot occur in text without [<] and non-breaking space. *)
Lemma key_absent (p s : pystr) :
  key_head p = true -> tag_free s = true -> contains p s = false.
Proof.
  intros K. induction s as [| c s IH]; intro T.
  - destruct p; [discriminate | reflexivity].
  - apply tag_free_head in T. destruct T as (E1 & E2 & T).
    cbn [contains]. rewrite (key_head_mismatch p c s K E1 E2), (IH T). reflexivity.
Qed.

Lemma table_key_heads :
  forallb (fun entry => key_head (fst entry)) RDL_TO_HTML = true.
Proof. reflexivity. Qed.

Lemma table_keys_absent (s : pystr) :
  tag_free s = true ->
  Forall (fun entry => contains (fst entry) s = false) RDL_TO_HTML.
Proof.
  intro T. apply Forall_forall. intros entry I.
  apply key_absent; [| exact T].
  assert (K := table_key_heads). rewrite forallb_forall in K. exact (K entry I).
Qed.

(** X2: text that holds neither [<] nor a non-breaking space is left
    as it is by the forward translation. *)
Theorem rdl_to_html_text (s : pystr) :
  tag_free s = true -> rdl_to_html s = s.
Proof.
  intro T. unfold rdl_to_html. apply forward_absent.
  apply table_keys_absent. exact T.
Qed.

Lemma rdl_to_html_text_witness :
  rdl_to_html (lit "Planet Manhattan, 220 million & counting > all")
  = lit "Planet Manhattan, 220 million & counting > all".
Proof.
  apply (rdl_to_html_text (lit "Planet Manhattan, 220 million & counting > all")).
  reflexivity.
Defined.
End TagFree.

(** ** What the reverse translation adds *)

Section Reverse.
Import Interface.

Lemma insert_length_eq (new s : pystr) :
  List.length (replace [] new s)
  = List.length s + List.length new * (List.length s + 1).
Proof.
  unfold replace. rewrite length_app.
  induction s as [| c s IH]; cbn [flat_map List.length].
  - lia.
  - rewrite length_app. cbn [List.length]. lia.
Qed.

(** A replacement by a non-empty text shortens by the factor of the
    pattern's length at most. *)
Lemma replace_scan_shrink (old new : pystr) :
  1 <= List.length old -> 1 <= List.length new ->
  forall s skip,
    List.length s <= List.length old * List.length (replace_scan old new skip s) + skip.
Proof.
  intros Lo Ln s. induction s as [| c s IH]; intro skip; cbn [replace_scan List.length].
  - lia.
  - destruct skip as [| k].
    + destruct (starts_with old (c :: s)).
      * rewrite length_app. specialize (IH (pred (List.length old))). nia.
      * cbn [List.length]. specialize (IH 0). nia.
    + specialize (IH k). lia.
Qed.

Lemma reverse_steps_length (table : list (pystr * pystr)) :
  forallb (fun entry => (1 <=? List.length (snd entry))
                        && (List.length (snd entry) <=? List.length (fst entry)))
          table = true ->
  forall s, List.length s <= List.length (fold_left reverse_step table s).
Proof.
  induction table as [| [rdl_tag html_tag] table IH]; intros T s.
  - simpl. lia.
  - cbn [forallb fst snd] in T. cbn [fold_left reverse_step].
    apply andb_prop in T. destruct T as [T1 T].
    apply andb_prop in T1. destruct T1 as [T2 T3].
    apply Nat.leb_le in T2, T3.
    assert (N : html_tag <> []) by (destruct html_tag; [simpl in T2; lia | discriminate]).
    rewrite (replace_nonempty _ _ _ N).
    specialize (IH T (replace_scan html_tag rdl_tag 0 s)).
    assert (L := replace_scan_length html_tag rdl_tag (conj T2 T3) s 0). lia.
Qed.

(** X3: the reverse translation returns more than it is given,
    whatever that is: its result starts with the XML header and is
    longer than its argument, so it is never its argument. *)
Theorem html_to_rdl_longer (html : pystr) :
  starts_with xml_header (html_to_rdl html) = true /\
  List.length html < List.length (html_to_rdl html) /\
  html_to_rdl html <> html.
Proof.
  assert (L : List.length html < List.length (html_to_rdl html)).
  { rewrite html_to_rdl_body. unfold reverse_body.
    rewrite table_head, fold_left_app. cbn [fold_left reverse_step].
    assert (L0 := reverse_steps_length (firstn 29 RDL_TO_HTML) eq_refl html).
    set (s0 := fold_left reverse_step (firstn 29 RDL_TO_HTML) html) in *.
    assert (L1 : List.length s0
                 <= 6 * List.length (replace (lit "&nbsp;") [160%N] s0)).
    { assert (S := replace_scan_shrink (lit "&nbsp;") [160%N]
                     ltac:(simpl; lia) ltac:(simpl; lia) s0 0).
      change (List.length (lit "&nbsp;")) with 6 in S.
      change (replace (lit "&nbsp;") [160%N] s0)
        with (replace_scan (lit "&nbsp;") [160%N] 0 s0). lia. }
    set (s1 := replace (lit "&nbsp;") [160%N] s0) in *.
    assert (I1 := insert_length_eq (lit "<RDL>") s1).
    change (List.length (lit "<RDL>")) with 5 in I1.
    set (s2 := replace [] (lit "<RDL>") s1) in *.
    assert (I2 := insert_length (lit "</RDL>") s2).
    set (s3 := replace [] (lit "</RDL>") s2) in *.
    assert (I3 := insert_length (lit "<TEXT>") s3).
    set (s4 := replace [] (lit "<TEXT>") s3) in *.
    assert (I4 := insert_length (lit "</TEXT>") s4).
    set (s5 := replace [] (lit "</TEXT>") s4) in *.
    assert (I5 := insert_length (lit "<PUSH/>") s5).
    set (s6 := replace [] (lit "<PUSH/>") s5) in *.
    assert (I6 := insert_length (lit "<POP/>") s6).
    set (s7 := replace [] (lit "<POP/>") s6) in *.
    assert (I7 := insert_length xml_header s7). lia. }
  split; [| split; [exact L |]].
  - rewrite html_to_rdl_body. unfold replace. apply starts_with_app.
  - intro E. rewrite E in L. lia.
Qed.
End Reverse.

(** X4: on text without [&] and non-breaking space, translating back
    and forward again never gives the text back: the result is at
    least 37 code points longer. *)
Theorem reverse_forward_longer (html : Interface.pystr) :
  Interface.plain_text html = true ->
  Interface.rdl_to_html (Interface.html_to_rdl html) <> html /\
  List.length html + 37
  <= List.length (Interface.rdl_to_html (Interface.html_to_rdl html)).
Proof.
  intro P. destruct (reverse_forward_grows html P) as [_ L].
  split; [| exact L]. intro E. rewrite E in L. lia.
Qed.

Lemma reverse_forward_longer_witness :
  Interface.rdl_to_html (Interface.html_to_rdl (Interface.lit "<b>Planet Manhattan</b>"))
  <> Interface.lit "<b>Planet Manhattan</b>" /\
  List.length (Interface.lit "<b>Planet Manhattan</b>") + 37
  <= List.length (Interface.rdl_to_html
                    (Interface.html_to_rdl (Interface.lit "<b>Planet Manhattan</b>"))).
Proof.
  apply (reverse_forward_longer (Interface.lit "<b>Planet Manhattan</b>")).
  reflexivity.
Defined.

(** ** One tag in text *)

Section OneTag.
Import Interface.
Import Plaintext.

Lemma tag_free_app (a b : pystr) :
  tag_free (a ++ b) = tag_free a && tag_free b.
Proof. apply forallb_app. Qed.

Lemma differ_mismatch (p v b : pystr) :
  differ p v = true -> starts_with p (v ++ b) = false.
Proof.
  revert v. induction p as [| x p IH]; intros v D.
  - destruct v; discriminate.
  - destruct v as [| y v]; [discriminate |].
    cbn [differ] in D. cbn [app starts_with].
    destruct (N.eqb x y); [| reflexivity]. rewrite (IH v D). reflexivity.
Qed.

(** A key that differs from every suffix of [u] does not occur in
    [u] between texts without tags. *)
Lemma blocked_absent (p a u b : pystr) :
  key_head p = true -> blocked p u = true ->
  tag_free a = true -> tag_free b = true ->
  contains p (a ++ u ++ b) = false.
Proof.
  intros K B Ta Tb. induction a as [| c a IH].
  - cbn [app]. clear Ta. induction u as [| x u IHu].
    + apply key_absent; assumption.
    + cbn [blocked] in B. apply andb_prop in B. destruct B as [D B].
      change ((x :: u) ++ b) with (x :: (u ++ b)). cbn [contains].
      change (x :: (u ++ b)) with ((x :: u) ++ b).
      rewrite (differ_mismatch _ _ b D), (IHu B). reflexivity.
  - apply tag_free_head in Ta. destruct Ta as (E1 & E2 & Ta).
    change ((c :: a) ++ u ++ b) with (c :: (a ++ u ++ b)). cbn [contains].
    rewrite (key_head_mismatch p c _ K E1 E2), (IH Ta). reflexivity.
Qed.

(** The key's own step replaces the one occurrence. *)
Lemma replace_one (w h a b : pystr) :
  key_head w = true -> tag_free a = true -> tag_free b = true ->
  replace w h (a ++ w ++ b) = a ++ h ++ b.
Proof.
  intros K Ta Tb.
  assert (N : w <> []) by (destruct w; [discriminate | discriminate]).
  rewrite (replace_nonempty _ _ _ N). induction a as [| c a IH].
  - cbn [app]. rewrite (replace_scan_hit _ _ _ N).
    rewrite (replace_scan_absent _ _ _ (key_absent w b K Tb)). reflexivity.
  - apply tag_free_head in Ta. destruct Ta as (E1 & E2 & Ta).
    change ((c :: a) ++ w ++ b) with (c :: (a ++ w ++ b)). cbn [replace_scan].
    rewrite (key_head_mismatch w c _ K E1 E2), (IH Ta). reflexivity.
Qed.

Lemma entries_alone_split (rest acc pre post : list (pystr * pystr)) (w h : pystr) :
  entries_alone acc rest = true -> rest = pre ++ (w, h) :: post ->
  entry_alone (rev acc ++ pre) w h post = true.
Proof.
  revert rest acc. induction pre as [| e pre IH]; intros rest acc A E; subst rest.
  - cbn [app entries_alone] in A. apply andb_prop in A. destruct A as [A _].
    rewrite app_nil_r. exact A.
  - destruct e as [w' h']. cbn [app entries_alone] in A.
    apply andb_prop in A. destruct A as [_ A].
    specialize (IH _ _ A eq_refl). cbn [rev] in IH.
    rewrite <- app_assoc in IH. exact IH.
Qed.

Lemma table_entries_alone : entries_alone [] RDL_TO_HTML = true.
Proof. vm_compute. reflexivity. Qed.

Lemma one_tag_steps (pre post : list (pystr * pystr)) (w h a b : pystr) :
  RDL_TO_HTML = pre ++ (w, h) :: post ->
  tag_free a = true -> tag_free b = true ->
  rdl_to_html (a ++ w ++ b) = a ++ h ++ b.
Proof.
  intros E Ta Tb.
  assert (A := entries_alone_split _ [] pre post w h table_entries_alone E).
  cbn [rev app] in A. unfold entry_alone in A.
  apply andb_prop in A. destruct A as [A Apost].
  apply andb_prop in A. destruct A as [K Apre].
  rewrite forallb_forall in Apre, Apost.
  unfold rdl_to_html. rewrite E, fold_left_app. cbn [fold_left].
  rewrite (forward_absent pre).
  - rewrite (replace_one w h a b K Ta Tb). apply forward_absent.
    apply Forall_forall. intros e Ie. specialize (Apost e Ie).
    apply andb_prop in Apost. destruct Apost as [Ke Be].
    apply blocked_absent; assumption.
  - apply Forall_forall. intros e Ie. specialize (Apre e Ie).
    apply andb_prop in Apre. destruct Apre as [Ke Be].
    apply blocked_absent; assumption.
Qed.

(** X5: every tag of the table, standing alone in text without [<]
    and non-breaking space, is translated to its HTML side, and the
    text around it is kept. *)
Theorem rdl_to_html_one_tag (w h a b : pystr) :
  In (w, h) RDL_TO_HTML -> tag_free a = true -> tag_free b = true ->
  rdl_to_html (a ++ w ++ b) = a ++ h ++ b.
Proof.
  intros I Ta Tb. apply in_split in I. destruct I as (pre & post & E).
  exact (one_tag_steps pre post w h a b E Ta Tb).
Qed.

Lemma rdl_to_html_one_tag_witness :
  rdl_to_html (lit "Planet Manhattan" ++ lit "<TRA data='0' mask='1' def='-1'/>"
               ++ lit " is a planet.")
  = lit "Planet Manhattan" ++ lit "</b>" ++ lit " is a planet.".
Proof.
  apply (rdl_to_html_one_tag (lit "<TRA data='0' mask='1' def='-1'/>") (lit "</b>")
                             (lit "Planet Manhattan") (lit " is a planet.")).
  - right. right. left. reflexivity.
  - reflexivity.
  - reflexivity.
Defined.
End OneTag.

(** ** Stripping tags *)

Section Strip.
Import Interface.
Import Plaintext.

Lemma strip_scan_skip (l v : pystr) :
  strip_scan (List.length l) (l ++ v) = strip_scan 0 v.
Proof.
  induction l as [| c l IH]; cbn [List.length app strip_scan].
  - destruct v; reflexivity.
  - exact IH.
Qed.

Lemma tag_end_split (t : pystr) (n : nat) :
  tag_end t = Some n ->
  exists u v, t = u ++ 62%N :: v /\ List.length u = n /\
              forallb (fun c => negb (N.eqb c 62) && negb (N.eqb c 10)) u = true.
Proof.
  revert n. induction t as [| c t IH]; intros n E; [discriminate |].
  cbn [tag_end] in E. destruct (N.eqb_spec c 62) as [-> | N62].
  - inversion E. exists [], t. repeat split.
  - destruct (N.eqb_spec c 10) as [-> | N10]; [discriminate |].
    destruct (tag_end t) as [m |]; [| discriminate].
    inversion E. destruct (IH m eq_refl) as (u & v & -> & L & F).
    exists (c :: u), v. repeat split; [simpl; rewrite L; reflexivity |].
    cbn [forallb]. rewrite F.
    apply N.eqb_neq in N62, N10. rewrite N62, N10. reflexivity.
Qed.

Lemma tag_end_found (u v : pystr) :
  forallb (fun c => negb (N.eqb c 62) && negb (N.eqb c 10)) u = true ->
  tag_end (u ++ 62%N :: v) = Some (List.length u).
Proof.
  induction u as [| c u IH]; cbn [forallb app tag_end List.length]; intro F.
  - reflexivity.
  - apply andb_prop in F. destruct F as [Fc F].
    apply andb_prop in Fc. destruct Fc as [F1 F2].
    apply negb_true_iff in F1, F2. rewrite F1, F2, (IH F). reflexivity.
Qed.

Lemma tag_end_open (u v : pystr) :
  forallb (fun c => negb (N.eqb c 62)) u = true ->
  tag_end (u ++ 10%N :: v) = None.
Proof.
  induction u as [| c u IH]; cbn [forallb app tag_end]; intro F.
  - reflexivity.
  - apply andb_prop in F. destruct F as [F1 F].
    apply negb_true_iff in F1. rewrite F1, (IH F).
    destruct (N.eqb c 10); reflexivity.
Qed.

Lemma strip_scan_text (a v : pystr) :
  forallb (fun c => negb (N.eqb c 60)) a = true ->
  strip_scan 0 (a ++ v) = a ++ strip_scan 0 v.
Proof.
  induction a as [| c a IH]; cbn [forallb app]; intro F.
  - reflexivity.
  - apply andb_prop in F. destruct F as [Fc F]. apply negb_true_iff in Fc.
    cbn [strip_scan]. rewrite Fc, (IH F). reflexivity.
Qed.

(** X6: a tag, from [<] to the first [>] after it on the same line,
    is taken out with all that is in it, and the text before it is
    kept. *)
Theorem strip_html_tag (a t b : pystr) :
  forallb (fun c => negb (N.eqb c 60)) a = true ->
  forallb (fun c => negb (N.eqb c 62) && negb (N.eqb c 10)) t = true ->
  strip_html (a ++ 60%N :: t ++ 62%N :: b) = a ++ strip_html b.
Proof.
  intros Fa Ft. unfold strip_html. rewrite (strip_scan_text _ _ Fa).
  cbn [strip_scan]. change (N.eqb 60 60) with true. cbv iota.
  rewrite (tag_end_found t b Ft).
  replace (t ++ 62%N :: b) with ((t ++ [62%N]) ++ b)
    by (rewrite <- app_assoc; reflexivity).
  replace (S (List.length t)) with (List.length (t ++ [62%N]))
    by (rewrite length_app; simpl; lia).
  rewrite strip_scan_skip. reflexivity.
Qed.

Lemma strip_html_tag_witness :
  strip_html (lit "Planet " ++ 60%N :: lit "font color='red'" ++ 62%N :: lit "Manhattan")
  = lit "Planet " ++ strip_html (lit "Manhattan").
Proof.
  apply (strip_html_tag (lit "Planet ") (lit "font color='red'") (lit "Manhattan"));
    reflexivity.
Defined.

(** X7: a [<] that no [>] follows before the end of its line stays:
    the pattern does not match across a newline. *)
Theorem strip_html_open (u b : pystr) :
  forallb (fun c => negb (N.eqb c 62)) u = true ->
  strip_html (60%N :: u ++ 10%N :: b) = 60%N :: strip_html (u ++ 10%N :: b).
Proof.
  intro F. unfold strip_html. cbn [strip_scan]. change (N.eqb 60 60) with true.
  cbv iota. rewrite (tag_end_open u b F). reflexivity.
Qed.

Lemma strip_html_open_witness :
  strip_html (60%N :: lit "b" ++ 10%N :: lit ">bold")
  = 60%N :: strip_html (lit "b" ++ 10%N :: lit ">bold").
Proof.
  apply (strip_html_open (lit "b") (lit ">bold")). reflexivity.
Defined.

Lemma tag_end_strip_none (t : pystr) :
  tag_end t = None -> tag_end (strip_scan 0 t) = None.
Proof.
  induction t as [| c t IH]; intro E; [reflexivity |].
  cbn [tag_end] in E. destruct (N.eqb_spec c 62) as [-> | N62]; [discriminate |].
  apply N.eqb_neq in N62.
  destruct (N.eqb_spec c 10) as [-> | N10].
  - reflexivity.
  - apply N.eqb_neq in N10.
    destruct (tag_end t) as [n |] eqn:Et; [discriminate |].
    cbn [strip_scan]. rewrite Et.
    destruct (N.eqb c 60); cbn [tag_end]; rewrite N62, N10, (IH eq_refl); reflexivity.
Qed.

Lemma strip_scan_found (t : pystr) (n : nat) :
  tag_end t = Some n ->
  exists v, List.length v < List.length t /\ strip_scan (S n) t = strip_scan 0 v.
Proof.
  intro E. destruct (tag_end_split t n E) as (u & v & -> & L & _).
  exists v. split; [rewrite length_app; simpl; lia |].
  replace (u ++ 62%N :: v) with ((u ++ [62%N]) ++ v)
    by (rewrite <- app_assoc; reflexivity).
  replace (S n) with (List.length (u ++ [62%N]))
    by (rewrite length_app; simpl; lia).
  apply strip_scan_skip.
Qed.

(** X8: stripping is idempotent: what is left after one pass holds no
    tag that a second pass would take out. *)
Theorem strip_html_idempotent (s : pystr) :
  strip_html (strip_html s) = strip_html s.
Proof.
  unfold strip_html.
  assert (G : forall n s, List.length s <= n ->
                          strip_scan 0 (strip_scan 0 s) = strip_scan 0 s).
  { induction n as [| n IH]; intros [| c t] L; try reflexivity.
    - simpl in L. lia.
    - simpl in L. cbn [strip_scan].
      destruct (N.eqb c 60) eqn:E60.
      + destruct (tag_end t) as [m |] eqn:Et.
        * destruct (strip_scan_found t m Et) as (v & Lv & ->). apply IH. lia.
        * cbn [strip_scan]. rewrite E60, (tag_end_strip_none t Et), IH by lia.
          reflexivity.
      + cbn [strip_scan]. rewrite E60, IH by lia. reflexivity. }
  apply (G (List.length s)). lia.
Qed.
End Strip.

(** ** Plain text *)

Section PlainText.
Import Interface.
Import Plaintext.

Lemma text_only_split (s : pystr) :
  text_only s = true ->
  tag_free s = true /\ plain_text s = true /\
  forallb (fun c => negb (N.eqb c 60)) s = true.
Proof.
  unfold text_only, tag_free, plain_text.
  induction s as [| c s IH]; cbn [forallb]; intro T; [repeat split |].
  apply andb_prop in T. destruct T as [Tc T].
  apply andb_prop in Tc. destruct Tc as [Tc T3].
  apply andb_prop in Tc. destruct Tc as [T1 T2].
  destruct (IH T) as (I1 & I2 & I3).
  rewrite T1, T2, T3, I1, I2, I3. repeat split.
Qed.

Lemma text_only_app (a b : pystr) :
  text_only (a ++ b) = text_only a && text_only b.
Proof. apply forallb_app. Qed.

Lemma strip_text (s : pystr) : text_only s = true -> strip_html s = s.
Proof.
  intro T. destruct (text_only_split s T) as (_ & _ & F).
  unfold strip_html. rewrite <- (app_nil_r s) at 1.
  rewrite (strip_scan_text s [] F). apply app_nil_r.
Qed.

Lemma no_entity (s : pystr) :
  text_only s = true -> replace (lit "&nbsp;") [] s = s.
Proof.
  intro T. destruct (text_only_split s T) as (_ & P & _).
  apply replace_absent. apply (plain_text_no_amp (lit "nbsp;") s P).
Qed.

(** X9: text without [<], [&] and non-breaking space is its own plain
    text. *)
Theorem rdl_to_plaintext_text (s : pystr) :
  text_only s = true -> rdl_to_plaintext s = s.
Proof.
  intro T. destruct (text_only_split s T) as (F & _ & _).
  unfold rdl_to_plaintext, rdl_to_html.
  rewrite (forward_absent RDL_TO_HTML s (table_keys_absent s F)).
  rewrite (replace_absent (lit "<p>") [10%N] s
             (key_absent (lit "<p>") s eq_refl F)).
  rewrite (strip_text s T). apply no_entity. exact T.
Qed.

Lemma rdl_to_plaintext_text_witness :
  rdl_to_plaintext (lit "Planet Manhattan: 220 million > all")
  = lit "Planet Manhattan: 220 million > all".
Proof.
  apply (rdl_to_plaintext_text (lit "Planet Manhattan: 220 million > all")).
  reflexivity.
Defined.

Lemma same_eq (x y : pystr) : same x y = true -> x = y.
Proof.
  revert y. induction x as [| a x IH]; intros [| b y] E; try discriminate.
  - reflexivity.
  - cbn [same] in E. apply andb_prop in E. destruct E as [E1 E2].
    apply N.eqb_eq in E1. subst b. rewrite (IH y E2). reflexivity.
Qed.

Lemma tag_end_app (t b : pystr) (n : nat) :
  tag_end t = Some n -> tag_end (t ++ b) = Some n.
Proof.
  revert n. induction t as [| c t IH]; intros n E; [discriminate |].
  cbn [tag_end app] in *. destruct (N.eqb c 62); [exact E |].
  destruct (N.eqb c 10); [discriminate |].
  destruct (tag_end t) as [m |]; [| discriminate].
  rewrite (IH m eq_refl). exact E.
Qed.

(** Complete tags are taken out whatever follows them. *)
Lemma closed_strip (h b : pystr) (skip : nat) :
  closed skip h = true -> strip_scan skip (h ++ b) = strip_scan 0 b.
Proof.
  revert skip. induction h as [| c h IH]; intros skip C.
  - cbn [closed] in C. apply Nat.eqb_eq in C. subst skip. reflexivity.
  - cbn [closed] in C. cbn [app strip_scan]. destruct skip as [| k].
    + destruct (N.eqb c 60); [| discriminate].
      destruct (tag_end h) as [n |] eqn:E; [| discriminate].
      rewrite (tag_end_app h b n E). exact (IH _ C).
    + exact (IH _ C).
Qed.

Lemma table_html_sides :
  forallb (fun entry => html_side (snd entry)) RDL_TO_HTML = true.
Proof. reflexivity. Qed.

Lemma entity_removed (a b : pystr) :
  text_only a = true -> text_only b = true ->
  replace (lit "&nbsp;") [] (a ++ lit "&nbsp;" ++ b) = a ++ b.
Proof.
  intros Ta Tb.
  assert (N : lit "&nbsp;" <> []) by discriminate.
  rewrite (replace_nonempty _ _ _ N). induction a as [| c a IH].
  - cbn [app]. rewrite (replace_scan_hit _ _ _ N).
    destruct (text_only_split b Tb) as (_ & P & _).
    rewrite (replace_scan_absent _ _ _ (plain_text_no_amp (lit "nbsp;") b P)).
    reflexivity.
  - unfold text_only in Ta. cbn [forallb] in Ta. apply andb_prop in Ta.
    destruct Ta as [Tc Ta]. apply andb_prop in Tc. destruct Tc as [Tc _].
    apply andb_prop in Tc. destruct Tc as [_ T38]. apply negb_true_iff in T38.
    change ((c :: a) ++ lit "&nbsp;" ++ b) with (c :: (a ++ lit "&nbsp;" ++ b)).
    cbn [replace_scan].
    assert (M : starts_with (lit "&nbsp;") (c :: a ++ lit "&nbsp;" ++ b) = false).
    { change (lit "&nbsp;") with (38%N :: lit "nbsp;") at 1. cbn [starts_with].
      rewrite N.eqb_sym, T38. reflexivity. }
    rewrite M, (IH Ta). reflexivity.
Qed.

(** X10: a tag of the table, standing alone in text without [<], [&]
    and non-breaking space, leaves a newline in the plain text when
    its HTML side is [<p>], and nothing otherwise; the text around it
    is kept. *)
Theorem rdl_to_plaintext_one_tag (w h a b : pystr) :
  In (w, h) RDL_TO_HTML -> text_only a = true -> text_only b = true ->
  rdl_to_plaintext (a ++ w ++ b)
  = a ++ (if same h (lit "<p>") then [10%N] else []) ++ b.
Proof.
  intros I Ta Tb.
  destruct (text_only_split a Ta) as (Fa & _ & La).
  destruct (text_only_split b Tb) as (Fb & _ & Lb).
  assert (S := table_html_sides). rewrite forallb_forall in S.
  specialize (S (w, h) I). cbn [snd] in S. unfold html_side in S.
  destruct (in_split _ _ I) as (pre & post & E).
  unfold rdl_to_plaintext. rewrite (one_tag_steps pre post w h a b E Fa Fb).
  destruct (same h (lit "<p>")) eqn:Ep.
  - apply same_eq in Ep. subst h.
    rewrite (replace_one (lit "<p>") [10%N] a b eq_refl Fa Fb).
    assert (T : text_only (a ++ [10%N] ++ b) = true)
      by (rewrite !text_only_app, Ta, Tb; reflexivity).
    rewrite (strip_text _ T). apply no_entity. exact T.
  - cbn [orb] in S. destruct (same h (lit "&nbsp;")) eqn:En.
    + apply same_eq in En. subst h.
      rewrite (replace_absent (lit "<p>") [10%N] _
                 (blocked_absent (lit "<p>") a (lit "&nbsp;") b
                                 eq_refl eq_refl Fa Fb)).
      unfold strip_html. rewrite (strip_scan_text a _ La).
      rewrite (strip_scan_text (lit "&nbsp;") b eq_refl).
      fold (strip_html b). rewrite (strip_text b Tb).
      apply entity_removed; assumption.
    + cbn [orb] in S. apply andb_prop in S. destruct S as [B C].
      rewrite (replace_absent (lit "<p>") [10%N] _
                 (blocked_absent (lit "<p>") a h b eq_refl B Fa Fb)).
      unfold strip_html. rewrite (strip_scan_text a _ La).
      rewrite (closed_strip h b 0 C). fold (strip_html b).
      rewrite (strip_text b Tb). cbn [app]. apply no_entity.
      rewrite text_only_app, Ta, Tb. reflexivity.
Qed.

Lemma rdl_to_plaintext_one_tag_witness :
  rdl_to_plaintext (lit "Planet Manhattan" ++ lit "<PARA/>" ++ lit "Population: 220 million")
  = lit "Planet Manhattan"
    ++ (if same (lit "<p>") (lit "<p>") then [10%N] else [])
    ++ lit "Population: 220 million".
Proof.
  apply (rdl_to_plaintext_one_tag (lit "<PARA/>") (lit "<p>")
           (lit "Planet Manhattan") (lit "Population: 220 million")).
  - do 25 right. left. reflexivity.
  - reflexivity.
  - reflexivity.
Defined.
End PlainText.

(** ** Names of an entity set *)

Section Names.
Context {T : Type} `{Entity T}.

Lemma add_names_In (s : EntitySet.t T) (e : T) (n : string) :
  In n (map nickname (EntitySet.add s e)) <-> n = nickname e \/ In n (map nickname s).
Proof.
  destruct (in_dec string_dec (nickname e) (map nickname s)) as [I | F].
  - rewrite add_names by exact I. split; [tauto |].
    intros [-> | I']; assumption.
  - rewrite add_fresh by exact F. rewrite map_app, in_app_iff. simpl.
    split; [intros [I | [<- | []]]; tauto | intros [-> | I]; tauto].
Qed.

(** An entity set has the nicknames of the entities it is made of. *)
Lemma make_names (l : list T) (n : string) :
  In n (map nickname (EntitySet.make l)) <-> In n (map nickname l).
Proof.
  unfold EntitySet.make.
  assert (G : forall s, In n (map nickname (fold_left EntitySet.add l s))
                        <-> In n (map nickname l) \/ In n (map nickname s)).
  { induction l as [| e l IH]; intro s; simpl.
    - tauto.
    - rewrite IH, add_names_In.
      split; intro I; intuition (subst; auto). }
  rewrite G. simpl. tauto.
Qed.

Lemma getitem_spec (s : EntitySet.t T) (n : string) :
  match EntitySet.getitem s n with
  | inr e => In e s /\ nickname e = n
  | inl err => err = KeyError /\ ~ In n (map nickname s)
  end.
Proof.
  unfold EntitySet.getitem. destruct (EntitySet.get s n) as [e |] eqn:G; simpl.
  - apply get_Some. exact G.
  - split; [reflexivity | apply get_None; exact G].
Qed.
End Names.

(** ** Jumps, solars and their bases *)

Section Links.
Variable g : Registry.

(** X11: a jump's destination resolves exactly when a system with
    the name in [goto] is loaded, and then to a loaded system of that
    name; otherwise [KeyError] is raised, and [IndexError] only for an
    empty list of tuples. *)
Theorem destination_system_named (j : Jump) :
  match Jump.destination_system g j with
  | inr s =>
      Solars.destination j = Some (nickname s) /\ In s (reg_systems g)
  | inl KeyError =>
      exists d, Solars.destination j = Some d /\
                ~ In d (map nickname (reg_systems g))
  | inl IndexError => goto j = GotoList []
  | inl AttributeError => False
  end.
Proof.
  unfold Jump.destination_system, Solars.destination.
  assert (K : forall d,
             match EntitySet.getitem (routines.get_systems g) d with
             | inr s => Some d = Some (nickname s) /\ In s (reg_systems g)
             | inl KeyError => exists d', Some d = Some d' /\
                                          ~ In d' (map nickname (reg_systems g))
             | inl IndexError => goto j = GotoList []
             | inl AttributeError => False
             end).
  { intro d. assert (S := getitem_spec (routines.get_systems g) d).
    destruct (EntitySet.getitem (routines.get_systems g) d) as [e | s].
    - destruct S as [-> N]. exists d. split; [reflexivity |].
      intro I. apply N. apply make_names. exact I.
    - destruct S as [I <-]. split; [reflexivity | apply make_In; exact I]. }
  destruct (goto j) as [[[d x] y] | l] eqn:E.
  - simpl. apply K.
  - destruct (rev l) as [| [[d x] y] r] eqn:R.
    + simpl. destruct l as [| a l]; [reflexivity |].
      apply (f_equal (@List.length _)) in R. rewrite length_rev in R. discriminate.
    + simpl. apply K.
Qed.

(** X12: the solar of a loaded base leads back to it: its
    [universe_base()] is that base. *)
Theorem solar_universe_base (b : Base) (bs : BaseSolar) :
  In b (routines.get_bases g) ->
  Base.solar g b = inr (Some bs) ->
  Solars.universe_base g bs = Some b /\ base bs = nickname b.
Proof.
  intros I S. unfold Base.solar in S.
  apply bind_ret_inv in S. destruct S as (s & _ & S).
  inversion S as [U]. apply unique_some in U. destruct U as [_ U].
  apply String.eqb_eq in U. split; [| exact U].
  unfold Solars.universe_base. rewrite U.
  apply (get_In (routines.get_bases g) b (make_NoDup _) I).
Qed.
End Links.

Lemma solar_universe_base_witness :
  Solars.universe_base Sample.sirius Sample.manhattan_solar = Some Sample.manhattan /\
  base Sample.manhattan_solar = nickname Sample.manhattan.
Proof.
  apply (solar_universe_base Sample.sirius Sample.manhattan Sample.manhattan_solar).
  - left. reflexivity.
  - reflexivity.
Defined.

(** ** Dicts keyed by entities, in general *)

Section EntityDicts.
Context {T V : Type} `{Entity T}.

Lemma dict_set_keys_In (d : list (T * V)) (k0 k : T) (v0 : V) :
  In k (map fst (dict_set entity_eqb d k0 v0)) -> k = k0 \/ In k (map fst d).
Proof.
  induction d as [| [k' v'] d IH]; simpl.
  - intros [<- | []]. left. reflexivity.
  - destruct (entity_eqb k' k0); simpl.
    + tauto.
    + intros [<- | I]; [right; left; reflexivity |].
      destruct (IH I) as [-> | I']; tauto.
Qed.

Lemma dict_set_keys_names (d : list (T * V)) (k0 : T) (v0 : V) (n : string) :
  In n (map nickname (map fst (dict_set entity_eqb d k0 v0))) <->
  n = nickname k0 \/ In n (map nickname (map fst d)).
Proof.
  induction d as [| [k' v'] d IH]; simpl.
  - split; [intros [<- | []]; tauto | intros [-> | []]; tauto].
  - unfold entity_eqb at 1.
    destruct (String.eqb_spec (nickname k') (nickname k0)) as [E | N]; simpl.
    + rewrite E. split; [tauto | intros [-> | I]; tauto].
    + rewrite IH. split; intro I; intuition (subst; auto).
Qed.

Lemma dict_set_keys_NoDup (d : list (T * V)) (k0 : T) (v0 : V) :
  NoDup (map nickname (map fst d)) ->
  NoDup (map nickname (map fst (dict_set entity_eqb d k0 v0))).
Proof.
  induction d as [| [k' v'] d IH]; simpl; intro N.
  - constructor; [intros [] | constructor].
  - inversion N as [| ? ? Nk Nd]; subst.
    unfold entity_eqb at 1.
    destruct (String.eqb_spec (nickname k') (nickname k0)) as [E | D]; simpl.
    + constructor; assumption.
    + constructor; [| exact (IH Nd)].
      rewrite dict_set_keys_names. intros [E | I]; [contradiction | contradiction].
Qed.

(** A dict built from pairs has one key per nickname, and its keys
    are keys of the pairs. *)
Lemma dict_of_keys (pairs : list (T * V)) :
  NoDup (map nickname (map fst (dict_of entity_eqb pairs))) /\
  forall k, In k (map fst (dict_of entity_eqb pairs)) -> In k (map fst pairs).
Proof.
  unfold dict_of.
  assert (G : forall d,
             NoDup (map nickname (map fst d)) ->
             NoDup (map nickname (map fst
               (fold_left (fun d kv => dict_set entity_eqb d (fst kv) (snd kv))
                          pairs d))) /\
             forall k, In k (map fst
               (fold_left (fun d kv => dict_set entity_eqb d (fst kv) (snd kv))
                          pairs d)) ->
                       In k (map fst pairs) \/ In k (map fst d)).
  { induction pairs as [| [k0 v0] pairs IH]; simpl; intros d N.
    - split; [exact N | tauto].
    - destruct (IH _ (dict_set_keys_NoDup d k0 v0 N)) as [N' K]. split; [exact N' |].
      intros k I. destruct (K k I) as [I' | I']; [tauto |].
      destruct (dict_set_keys_In _ _ _ _ I') as [-> | I'']; tauto. }
  destruct (G [] (NoDup_nil _)) as [N K]. split; [exact N |].
  intros k I. destruct (K k I) as [I' | []]. exact I'.
Qed.

Lemma dict_get_In (d : list (T * V)) (k : T) (v : V) :
  NoDup (map nickname (map fst d)) -> In (k, v) d ->
  dict_get entity_eqb d k = Some v.
Proof.
  induction d as [| [k' v'] d IH]; simpl; intros N I.
  - contradiction.
  - inversion N as [| ? ? Nk Nd]; subst. destruct I as [E | I].
    + inversion E. subst k' v'. unfold entity_eqb. rewrite String.eqb_refl. reflexivity.
    + unfold entity_eqb at 1.
      destruct (String.eqb_spec (nickname k') (nickname k)) as [E | _].
      * contradiction Nk. rewrite E.
        apply in_map. apply (in_map fst) in I. exact I.
      * exact (IH Nd I).
Qed.
End EntityDicts.

(** ** Factions, their bases and their sheets *)

Section Factions.
Variable g : Registry.

Lemma owned_complete (f : Faction) (l r : list Base) :
  Faction.owned g f l = inr r ->
  forall b bs, In b l -> Base.solar g b = inr (Some bs) ->
               reputation bs = nickname f -> In b r.
Proof.
  revert r. induction l as [| x l IH]; simpl; intros r E b bs I S R.
  - contradiction.
  - apply bind_ret_inv in E. destruct E as (h & Eh & E).
    apply bind_ret_inv in E. destruct E as (keep & Ek & E).
    apply bind_ret_inv in E. destruct E as (r' & Er & E).
    inversion E. subst r. clear E. destruct I as [<- | I].
    + unfold Base.has_solar in Eh. rewrite S in Eh, Ek. simpl in Eh.
      inversion Eh. subst h. simpl in Ek. rewrite R, String.eqb_refl in Ek.
      inversion Ek. left. reflexivity.
    + specialize (IH _ Er b bs I S R). destruct keep; [right |]; exact IH.
Qed.

Lemma owned_names (f : Faction) (l r : list Base) :
  Faction.owned g f l = inr r ->
  NoDup (map nickname l) -> NoDup (map nickname r).
Proof.
  revert r. induction l as [| x l IH]; simpl; intros r E N.
  - inversion E. constructor.
  - apply bind_ret_inv in E. destruct E as (h & Eh & E).
    apply bind_ret_inv in E. destruct E as (keep & Ek & E).
    apply bind_ret_inv in E. destruct E as (r' & Er & E).
    inversion E. subst r. clear E. inversion N as [| ? ? Nx Nl]; subst.
    destruct keep; [| exact (IH _ Er Nl)].
    simpl. constructor; [| exact (IH _ Er Nl)].
    intro I. apply Nx. apply in_map_iff in I. destruct I as (y & Ey & Iy).
    destruct (owned_sound g f l r' Er y Iy) as [Iy' _].
    rewrite <- Ey. apply in_map. exact Iy'.
Qed.

(** X13: [Faction.bases] returns exactly the loaded bases that have a
    solar whose [reputation] is the faction's nickname, each once. *)
Theorem faction_bases_exact (f : Faction) (l : EntitySet.t Base) :
  Faction.bases g f = inr l ->
  NoDup (map nickname l) /\
  forall b, In b l <->
            In b (routines.get_bases g) /\
            exists bs, Base.solar g b = inr (Some bs) /\ reputation bs = nickname f.
Proof.
  unfold Faction.bases. intro E.
  apply bind_ret_inv in E. destruct E as (r & Er & E). inversion E. subst l.
  assert (N := owned_names f _ r Er (make_NoDup _)).
  rewrite (make_distinct r N). split; [exact N |].
  intro b. split.
  - intro I. destruct (owned_sound g f _ r Er b I) as (I1 & _ & I3). tauto.
  - intros (I & bs & S & R). exact (owned_complete f _ r Er b bs I S R).
Qed.

(** X14: a loaded faction owns the bases it lists: [owner()] of
    each is the faction, and the faction can dock there exactly when
    the value it gives itself exceeds [NODOCK_REP]. *)
Theorem own_bases_owner (f : Faction) (l : EntitySet.t Base) (b : Base) :
  In f (routines.get_factions g) ->
  Faction.bases g f = inr l -> In b l ->
  Base.owner g b = inr (Some f) /\
  (Faction.can_dock_at g f (Faction.AtBase b) = inr true <->
   exists r, Faction.reputation_toward f f = Some r /\
             PrimFloat.ltb Faction.NODOCK_REP r = true).
Proof.
  intros If E I. unfold Faction.bases in E.
  apply bind_ret_inv in E. destruct E as (r & Er & E). inversion E. subst l.
  apply make_In in I.
  destruct (owned_sound g f _ r Er b I) as (_ & Hs & bs & S & R).
  assert (O : Base.owner g b = inr (Some f)).
  { unfold Base.owner. rewrite Hs. simpl. rewrite S. simpl.
    unfold BaseSolar.owner, EntitySet.getitem. rewrite R.
    rewrite (get_In (routines.get_factions g) f (make_NoDup _) If). reflexivity. }
  split; [exact O |].
  unfold Faction.can_dock_at. simpl. rewrite O. simpl. unfold dict_getitem.
  rewrite (rep_sheet_lookup g f f If).
  destruct (Faction.reputation_toward f f) as [v |]; simpl.
  - split.
    + intro C. inversion C as [C']. exists v. rewrite C'. split; reflexivity.
    + intros (v' & Ev & C). inversion Ev. subst v'. rewrite C. reflexivity.
  - split; [discriminate | intros (v & Ev & _); discriminate].
Qed.

Lemma reputation_fold_none (n : string) (l : list (float * string)) (init : option float) :
  fold_left (fun acc rf => if String.eqb (snd rf) n then Some (fst rf) else acc) l init
  = None <-> init = None /\ ~ In n (map snd l).
Proof.
  revert init. induction l as [| [r m] l IH]; intro init; simpl.
  - tauto.
  - rewrite IH. destruct (String.eqb_spec m n) as [-> | D].
    + split; [intros [E _]; discriminate | intros [_ F]; contradiction F; left; reflexivity].
    + tauto.
Qed.

(** X15: the sheet has one entry per faction nickname; every entry is
    for a loaded faction and holds the value of the last entry of the
    raw vector that names it; and a loaded faction is missing from
    the sheet exactly when the raw vector does not name it, so entries
    that name unknown factions are dropped. *)
Theorem rep_sheet_entries (self : Faction) :
  NoDup (map nickname (map fst (Faction.rep_sheet g self))) /\
  (forall f r, In (f, r) (Faction.rep_sheet g self) ->
               In f (routines.get_factions g) /\
               Faction.reputation_toward self f = Some r) /\
  (forall f, In f (routines.get_factions g) ->
             (dict_get entity_eqb (Faction.rep_sheet g self) f = None <->
              ~ In (nickname f) (map snd (rep self)))).
Proof.
  assert (K := dict_of_keys
                 (flat_map (fun rf => match EntitySet.get (routines.get_factions g)
                                              (snd rf) with
                                      | Some f => [(f, fst rf)]
                                      | None => []
                                      end) (rep self))).
  fold (Faction.rep_sheet g self) in K. destruct K as [N K].
  assert (L : forall f, In f (map fst (Faction.rep_sheet g self)) ->
                        In f (routines.get_factions g)).
  { intros f I. apply K in I. apply in_map_iff in I.
    destruct I as ([f' r] & <- & I). apply in_flat_map in I.
    destruct I as ([r0 n] & _ & I). simpl in I.
    destruct (EntitySet.get (routines.get_factions g) n) as [f0 |] eqn:G; [| contradiction].
    destruct I as [I | []]. inversion I. subst f0.
    apply (get_Some _ _ _ G). }
  split; [exact N | split].
  - intros f r I.
    assert (If : In f (routines.get_factions g))
      by (apply L; apply (in_map fst) in I; exact I).
    split; [exact If |]. rewrite <- (rep_sheet_lookup g self f If).
    apply dict_get_In; assumption.
  - intros f If. rewrite (rep_sheet_lookup g self f If).
    unfold Faction.reputation_toward. rewrite reputation_fold_none. tauto.
Qed.
End Factions.

Lemma faction_bases_exact_witness :
  NoDup (map nickname [Sample.manhattan]) /\
  forall b, In b [Sample.manhattan] <->
            In b (routines.get_bases Sample.sirius) /\
            exists bs, Base.solar Sample.sirius b = inr (Some bs) /\
                       reputation bs = nickname Sample.li_n_grp.
Proof.
  apply (faction_bases_exact Sample.sirius Sample.li_n_grp [Sample.manhattan]).
  reflexivity.
Defined.

Lemma own_bases_owner_witness :
  Base.owner Sample.sirius Sample.manhattan = inr (Some Sample.li_n_grp) /\
  (Faction.can_dock_at Sample.sirius Sample.li_n_grp (Faction.AtBase Sample.manhattan)
   = inr true <->
   exists r, Faction.reputation_toward Sample.li_n_grp Sample.li_n_grp = Some r /\
             PrimFloat.ltb Faction.NODOCK_REP r = true).
Proof.
  apply (own_bases_owner Sample.sirius Sample.li_n_grp [Sample.manhattan]
                         Sample.manhattan).
  - left. reflexivity.
  - reflexivity.
  - left. reflexivity.
Defined.

(** ** The shape of the lanes *)

Section LaneShape.
Variable g : Registry.
Variable self : System.

Let rings := System.rings g self.

Lemma follow_sound (fuel : nat) (r : TradeLaneRing) (path : list TradeLaneRing) :
  System.follow fuel rings r = Some path ->
  exists last, linked rings r path last /\ chain_ends rings last.
Proof.
  revert r path. induction fuel as [| fuel IH]; intros r path E; [discriminate |].
  cbn [System.follow] in E. unfold chain_ends.
  destruct (next_ring r) as [n |] eqn:En.
  - destruct (String.eqb_spec n "") as [-> | Nn].
    + inversion E. exists r. split; [constructor |]. rewrite En. left. reflexivity.
    + destruct (EntitySet.get rings n) as [r' |] eqn:G.
      * destruct (System.follow fuel rings r') as [p |] eqn:F; [| discriminate].
        inversion E. destruct (IH r' p F) as (last & L & Z).
        exists last. split; [| exact Z].
        apply linked_next with (n := n); assumption.
      * inversion E. exists r. split; [constructor |]. rewrite En. right. exact G.
  - inversion E. exists r. split; [constructor |]. rewrite En. exact I.
Qed.

Lemma all_some_Forall2 {A B : Type} (f : A -> option B) (l : list A) (m : list B) :
  System.all_some (map f l) = Some m -> Forall2 (fun a b => f a = Some b) l m.
Proof.
  revert m. induction l as [| a l IH]; simpl; intros m E.
  - inversion E. constructor.
  - destruct (f a) as [b |] eqn:Ea; [| discriminate].
    destruct (System.all_some (map f l)) as [m' |]; [| discriminate].
    inversion E. constructor; [exact Ea | apply IH; reflexivity].
Qed.

(** X16: when [lanes] returns, it returns one lane for every ring
    without a [prev_ring], in the order of the rings; each lane is
    such a ring followed by the rings that resolved [next_ring] links
    lead to, one after the other, up to a ring whose [next_ring] is
    empty or names no ring of the system. *)
Theorem lanes_shape (fuel : nat) (lanes : list (list TradeLaneRing)) :
  System.lanes fuel g self = Some lanes ->
  Forall2 (fun head lane =>
             exists path last,
               lane = head :: path /\
               linked (System.rings g self) head path last /\
               chain_ends (System.rings g self) last)
          (filter is_head (System.rings g self)) lanes.
Proof.
  intro E. rewrite lanes_heads in E. apply all_some_Forall2 in E.
  fold rings in E |- *.
  induction E as [| h lane hs ls Eh _ IH]; constructor; [| exact IH].
  destruct (System.follow fuel rings h) as [path |] eqn:F; [| discriminate].
  inversion Eh. destruct (follow_sound fuel h path F) as (last & L & Z).
  exists path, last. repeat split; assumption.
Qed.

Lemma follow_short (r last : TradeLaneRing) (path : list TradeLaneRing) :
  linked rings r path last ->
  forall fuel, fuel <= List.length path -> System.follow fuel rings r = None.
Proof.
  induction 1 as [r | r r' last n path En Nn Gn _ IH]; intros fuel L.
  - simpl in L. replace fuel with 0 by lia. reflexivity.
  - destruct fuel as [| fuel]; [reflexivity |]. simpl in L.
    cbn [System.follow]. rewrite En. apply String.eqb_neq in Nn. rewrite Nn, Gn.
    rewrite (IH fuel); [reflexivity | lia].
Qed.

Lemma follow_through (r last : TradeLaneRing) (path : list TradeLaneRing) :
  linked rings r path last ->
  forall n, System.follow (List.length path + n) rings r
            = option_map (app path) (System.follow n rings last).
Proof.
  induction 1 as [r | r r' last n path En Nn Gn _ IH]; intro m.
  - simpl. destruct (System.follow m rings r); reflexivity.
  - cbn [List.length Nat.add System.follow]. rewrite En.
    apply String.eqb_neq in Nn. rewrite Nn, Gn, IH.
    destruct (System.follow m rings last); reflexivity.
Qed.

Lemma follow_cycle (r x : TradeLaneRing) (loop : list TradeLaneRing) :
  linked rings r (x :: loop) r ->
  forall fuel, System.follow fuel rings r = None.
Proof.
  intros C fuel. induction fuel as [fuel IH] using lt_wf_ind.
  destruct (le_lt_dec fuel (List.length (x :: loop))) as [S | L].
  - exact (follow_short r r _ C fuel S).
  - replace fuel with (List.length (x :: loop) + (fuel - List.length (x :: loop)))
      by lia.
    rewrite (follow_through r r _ C), IH; [reflexivity | simpl in *; lia].
Qed.

Lemma all_some_none {A B : Type} (f : A -> option B) (l : list A) (a : A) :
  In a l -> f a = None -> System.all_some (map f l) = None.
Proof.
  induction l as [| x l IH]; simpl; intros I E; [contradiction |].
  destruct I as [-> | I].
  - rewrite E. reflexivity.
  - destruct (f x); [| reflexivity]. rewrite (IH I E). reflexivity.
Qed.

(** X17: when the links from a ring without a [prev_ring] lead into
    a cycle, the loop of [lanes] does not end: no number of
    iterations gives a result. *)
Theorem lanes_cycle (head r x : TradeLaneRing) (path loop : list TradeLaneRing) :
  In head (System.rings g self) -> prev_ring head = None ->
  linked (System.rings g self) head path r ->
  linked (System.rings g self) r (x :: loop) r ->
  forall fuel, System.lanes fuel g self = None.
Proof.
  intros I P L C fuel. rewrite lanes_heads.
  apply all_some_none with (a := head).
  - apply filter_In. split; [exact I |]. unfold is_head. rewrite P. reflexivity.
  - change (System.rings g self) with rings.
    destruct (le_lt_dec fuel (List.length path)) as [S | G].
    + rewrite (follow_short head r path L fuel S). reflexivity.
    + replace fuel with (List.length path + (fuel - List.length path)) by lia.
      rewrite (follow_through head r path L), (follow_cycle r x loop C). reflexivity.
Qed.
End LaneShape.

Lemma lanes_shape_witness :
  Forall2 (fun head lane =>
             exists path last,
               lane = head :: path /\
               linked (System.rings Sample.sirius Sample.li01) head path last /\
               chain_ends (System.rings Sample.sirius Sample.li01) last)
          (filter is_head (System.rings Sample.sirius Sample.li01))
          [[Sample.ring_1; Sample.ring_2; Sample.ring_3]].
Proof.
  apply (lanes_shape Sample.sirius Sample.li01 3
                     [[Sample.ring_1; Sample.ring_2; Sample.ring_3]]).
  reflexivity.
Defined.

Lemma lanes_cycle_witness :
  System.lanes 1000 Circular.looped Circular.li02 = None.
Proof.
  apply (lanes_cycle Circular.looped Circular.li02
                     Circular.ring_a Circular.ring_b Circular.ring_c
                     [Circular.ring_b] [Circular.ring_b]).
  - left. reflexivity.
  - reflexivity.
  - apply linked_next with (n := "li02_trade_lane_ring_2"%string);
      [reflexivity | discriminate | reflexivity | apply linked_end].
  - apply linked_next with (n := "li02_trade_lane_ring_3"%string);
      [reflexivity | discriminate | reflexivity |].
    apply linked_next with (n := "li02_trade_lane_ring_2"%string);
      [reflexivity | discriminate | reflexivity | apply linked_end].
Defined.

(** ** Broken chains *)

Section BrokenChains.
Variable g : Registry.
Variable self : System.

Let rings := System.rings g self.







End BrokenChains.




(** ** What [loot] returns *)

Section LootResult.
Variable g : Registry.

Lemma mapM_ext {A B : Type} (f f' : A -> result B) (l : list A) :
  (forall a, f a = f' a) -> mapM f l = mapM f' l.
Proof.
  intro E. induction l as [| a l IH]; simpl; [reflexivity |].
  rewrite E, IH. reflexivity.
Qed.

(** The loop of [loot] visits [Cargo.items]. *)
Lemma resolve_items (self : Loadout) :
  Loadout.resolve g (cargo (Loadout.normalize self))
  = mapM (Cargo.resolve_item g) (Cargo.items (cargo self)).
Proof.
  assert (L : forall l,
             mapM (fun equip =>
                     let equip' := match equip with
                                   | Pair nick amount => (nick, amount)
                                   | Bare nick => (nick, 1%Z)
                                   end in
                     e <- EntitySet.getitem (routines.get_equipment g) (fst equip') ;;
                     ret (e, snd equip')) l
             = mapM (Cargo.resolve_item g) l).
  { intro l. apply mapM_ext. intros [nick | nick amount]; reflexivity. }
  destruct self as [n a [| i | [| i l]]]; try reflexivity.
  - unfold Loadout.normalize, Cargo.items. cbn [cargo].
    destruct (Loadout.truthy (CargoOne i)) eqn:T.
    + unfold Loadout.resolve, Loadout.set_cargo. cbn [cargo Loadout.truthy]. apply L.
    + unfold Loadout.resolve. cbn [cargo]. rewrite T. reflexivity.
  - unfold Loadout.normalize, Loadout.resolve, Cargo.items.
    cbn [cargo Loadout.truthy]. apply L.
Qed.

Lemma loot_items (self : Loadout) :
  snd (Loadout.loot g self)
  = (result <- mapM (Cargo.resolve_item g) (Cargo.items (cargo self)) ;;
     ret (map (fun kv => (fst kv,
                          if (1 <? Loadout.count result (fst kv))%Z
                          then Loadout.count result (fst kv)
                          else snd kv))
              (dict_of entity_eqb result))).
Proof. rewrite loot_spec, resolve_items. reflexivity. Qed.

(** The resolved pairs carry the names and amounts of the items. *)
Lemma resolved_items (l : list cargo_item) (result : list (Equipment * Z)) :
  mapM (Cargo.resolve_item g) l = inr result ->
  map nickname (map fst result) = map Cargo.item_nickname l /\
  map snd result = map Cargo.item_amount l.
Proof.
  intro E. apply mapM_inr in E.
  induction E as [| i p l r Ei _ IH]; [split; reflexivity |].
  destruct IH as [IH1 IH2]. unfold Cargo.resolve_item in Ei.
  apply bind_ret_inv in Ei. destruct Ei as (e & Ee & Ei). inversion Ei. subst p.
  assert (S := getitem_spec (routines.get_equipment g) (Cargo.item_nickname i)).
  rewrite Ee in S. destruct S as [_ S]. simpl. rewrite IH1, IH2.
  split; [f_equal; exact S | reflexivity].
Qed.

Lemma count_occurrences (result : list (Equipment * Z)) (e : Equipment) :
  Loadout.count result e
  = Cargo.occurrences (map nickname (map fst result)) (nickname e).
Proof.
  unfold Loadout.count, Cargo.occurrences. f_equal.
  induction (map fst result) as [| x l IH]; [reflexivity |].
  cbn [filter map]. unfold entity_eqb at 1. rewrite String.eqb_sym.
  destruct (String.eqb (nickname e) (nickname x)); cbn [List.length]; rewrite IH;
    reflexivity.
Qed.

Lemma occurrences_NoDup (l : list string) (n : string) :
  NoDup l -> (Cargo.occurrences l n <= 1)%Z.
Proof.
  unfold Cargo.occurrences. induction 1 as [| x l Nx _ IH]; [simpl; lia |].
  cbn [filter]. destruct (String.eqb_spec n x) as [-> | _]; [| exact IH].
  assert (E : filter (String.eqb x) l = []).
  { clear IH. induction l as [| y l IHl]; [reflexivity |].
    cbn [filter]. destruct (String.eqb_spec x y) as [-> | _].
    - contradiction Nx. left. reflexivity.
    - apply IHl. intro I. apply Nx. right. exact I. }
  rewrite E. simpl. lia.
Qed.

(** X18: a cargo without a repeated nickname is returned as it is
    resolved: every item with its equipment and its own amount (1 for
    a bare nickname), in the order of the cargo. *)
Theorem loot_distinct (self : Loadout) :
  NoDup (map Cargo.item_nickname (Cargo.items (cargo self))) ->
  snd (Loadout.loot g self)
  = mapM (Cargo.resolve_item g) (Cargo.items (cargo self)).
Proof.
  intro N. rewrite loot_items.
  destruct (mapM (Cargo.resolve_item g) (Cargo.items (cargo self)))
    as [e | result] eqn:E; [reflexivity |].
  destruct (resolved_items _ _ E) as [Rn _]. rewrite <- Rn in N.
  simpl. rewrite (dict_of_distinct result N). unfold ret. f_equal.
  etransitivity; [| apply map_id]. apply map_ext. intros [k v]. simpl.
  rewrite count_occurrences.
  assert (L := occurrences_NoDup _ (nickname k) N).
  apply Z.ltb_ge in L. rewrite L. reflexivity.
Qed.
End LootResult.

Lemma loot_distinct_witness :
  snd (Loadout.loot Sample.armory Circular.mixed_loadout)
  = mapM (Cargo.resolve_item Sample.armory)
         (Cargo.items (cargo Circular.mixed_loadout)).
Proof.
  apply (loot_distinct Sample.armory Circular.mixed_loadout).
  repeat constructor; simpl; intuition discriminate.
Defined.

Section LootKeys.
Variable g : Registry.

Lemma dict_set_names_eq {V : Type} (d : list (Equipment * V)) (k : Equipment) (v : V) :
  map nickname (map fst (dict_set entity_eqb d k v))
  = if existsb (String.eqb (nickname k)) (map nickname (map fst d))
    then map nickname (map fst d)
    else map nickname (map fst d) ++ [nickname k].
Proof.
  induction d as [| [k' v'] d IH]; [reflexivity |].
  cbn [dict_set map fst existsb]. unfold entity_eqb at 1.
  rewrite (String.eqb_sym (nickname k) (nickname k')).
  destruct (String.eqb (nickname k') (nickname k)); [reflexivity |].
  cbn [map fst orb]. rewrite IH.
  destruct (existsb (String.eqb (nickname k)) (map nickname (map fst d))); reflexivity.
Qed.

Lemma dict_of_first_seen {V : Type} (pairs : list (Equipment * V)) :
  map nickname (map fst (dict_of entity_eqb pairs))
  = Cargo.first_seen (map nickname (map fst pairs)).
Proof.
  unfold dict_of, Cargo.first_seen.
  assert (G : forall d : list (Equipment * V),
             map nickname (map fst
               (fold_left (fun d kv => dict_set entity_eqb d (fst kv) (snd kv))
                          pairs d))
             = fold_left (fun acc n => if existsb (String.eqb n) acc
                                       then acc else acc ++ [n])
                         (map nickname (map fst pairs))
                         (map nickname (map fst d))).
  { induction pairs as [| [k v] pairs IH]; intro d; [reflexivity |].
    cbn [fold_left map fst snd]. rewrite IH, dict_set_names_eq. reflexivity. }
  exact (G []).
Qed.

(** X19: [loot] returns one pair for every nickname of the cargo, in
    the order in which the nicknames are first seen in it. *)
Theorem loot_first_seen (self : Loadout) (out : list (Equipment * Z)) :
  snd (Loadout.loot g self) = inr out ->
  map nickname (map fst out)
  = Cargo.first_seen (map Cargo.item_nickname (Cargo.items (cargo self))).
Proof.
  rewrite loot_items. intro E.
  apply bind_ret_inv in E. destruct E as (result & Er & E).
  inversion E. subst out. destruct (resolved_items g _ _ Er) as [Rn _].
  rewrite <- Rn, <- dict_of_first_seen.
  match goal with
  | |- map nickname (map fst (map ?h ?d)) = _ =>
      replace (map fst (map h d)) with (map fst d)
        by (rewrite map_map; apply map_ext; reflexivity)
  end.
  reflexivity.
Qed.

Lemma dict_of_pairs_In (pairs : list (Equipment * Z)) (k : Equipment) (v : Z) :
  In (k, v) (dict_of entity_eqb pairs) ->
  exists k', In (k', v) pairs /\ nickname k' = nickname k.
Proof.
  unfold dict_of.
  assert (G : forall d,
             In (k, v) (fold_left (fun d kv => dict_set entity_eqb d (fst kv) (snd kv))
                                  pairs d) ->
             In (k, v) d \/ exists k', In (k', v) pairs /\ nickname k' = nickname k).
  { induction pairs as [| [k0 v0] pairs IH]; simpl; intros d I.
    - left. exact I.
    - destruct (IH _ I) as [I' | (k' & I' & E)].
      + destruct (dict_set_In _ _ _ _ _ I') as [I'' | [-> E]].
        * left. exact I''.
        * right. exists k0. split; [left; reflexivity | symmetry; exact E].
      + right. exists k'. split; [right; exact I' | exact E]. }
  intro I. destruct (G _ I) as [[] | R]. exact R.
Qed.

Lemma resolved_In (l : list cargo_item) (result : list (Equipment * Z))
      (k : Equipment) (v : Z) :
  mapM (Cargo.resolve_item g) l = inr result -> In (k, v) result ->
  exists i, In i l /\ Cargo.item_nickname i = nickname k /\ Cargo.item_amount i = v.
Proof.
  intro E. apply mapM_inr in E.
  induction E as [| i p l r Ei _ IH]; intro I; [contradiction |].
  destruct I as [-> | I].
  - unfold Cargo.resolve_item in Ei.
    apply bind_ret_inv in Ei. destruct Ei as (e & Ee & Ei).
    assert (S := getitem_spec (routines.get_equipment g) (Cargo.item_nickname i)).
    rewrite Ee in S. destruct S as [_ S]. inversion Ei. subst.
    exists i. split; [left; reflexivity |]. split; [symmetry; exact S | reflexivity].
  - destruct (IH I) as (i' & I' & R). exists i'. split; [right; exact I' | exact R].
Qed.

(** X20: the amount that [loot] returns for a nickname that occurs
    more than once in the cargo is the number of its occurrences,
    whatever the amounts of the items are; for a nickname that occurs
    once it is the amount of its item. *)
Theorem loot_amounts (self : Loadout) (out : list (Equipment * Z))
        (e : Equipment) (q : Z) :
  snd (Loadout.loot g self) = inr out -> In (e, q) out ->
  let names := map Cargo.item_nickname (Cargo.items (cargo self)) in
  (1 <= Cargo.occurrences names (nickname e))%Z /\
  if (1 <? Cargo.occurrences names (nickname e))%Z
  then q = Cargo.occurrences names (nickname e)
  else exists i, In i (Cargo.items (cargo self)) /\
                 Cargo.item_nickname i = nickname e /\ q = Cargo.item_amount i.
Proof.
  rewrite loot_items. intros E I names.
  apply bind_ret_inv in E. destruct E as (result & Er & E).
  inversion E. subst out. clear E.
  destruct (resolved_items g _ _ Er) as [Rn _]. fold names in Rn.
  apply in_map_iff in I. destruct I as ([k v] & Ek & I).
  cbn [fst snd] in Ek. rewrite count_occurrences, Rn in Ek.
  destruct (dict_of_pairs_In result k v I) as (k' & I' & En).
  assert (P : (1 <= Cargo.occurrences names (nickname k))%Z).
  { rewrite <- Rn, <- count_occurrences. apply count_positive.
    rewrite <- En. apply in_map. apply (in_map fst) in I'. exact I'. }
  destruct (1 <? Cargo.occurrences names (nickname k))%Z eqn:C;
    inversion Ek; subst e q; rewrite C; split; try exact P; try reflexivity.
  destruct (resolved_In _ _ k' v Er I') as (i & Ii & Ni & Ai).
  exists i. repeat split; [exact Ii | rewrite Ni; exact En | symmetry; exact Ai].
Qed.

Lemma mapM_raises {A B : Type} (f : A -> result B) (l : list A) (a : A) (e : exn) :
  In a l -> f a = inl e -> exists e', mapM f l = inl e'.
Proof.
  induction l as [| x l IH]; simpl; intros I E; [contradiction |].
  destruct (f x) as [e0 | b] eqn:Ex; simpl; [exists e0; reflexivity |].
  destruct I as [-> | I]; [rewrite E in Ex; discriminate |].
  destruct (IH I E) as [e' ->]. exists e'. reflexivity.
Qed.

(** X21: [loot] raises exactly when the nickname of an item of the
    cargo is not the nickname of a loaded equipment, and what it
    raises is [KeyError]: no item is dropped silently. *)
Theorem loot_raises (self : Loadout) :
  ((exists e, snd (Loadout.loot g self) = inl e) <->
   exists i, In i (Cargo.items (cargo self)) /\
             ~ In (Cargo.item_nickname i) (map nickname (reg_equipment g))) /\
  forall e, snd (Loadout.loot g self) = inl e -> e = KeyError.
Proof.
  rewrite loot_items.
  assert (R : forall i e, Cargo.resolve_item g i = inl e ->
                          e = KeyError /\
                          ~ In (Cargo.item_nickname i) (map nickname (reg_equipment g))).
  { intros i e E. unfold Cargo.resolve_item in E.
    assert (S := getitem_spec (routines.get_equipment g) (Cargo.item_nickname i)).
    destruct (EntitySet.getitem (routines.get_equipment g) (Cargo.item_nickname i))
      as [e' | x]; simpl in E; [| discriminate].
    inversion E. subst e'. destruct S as [-> S]. split; [reflexivity |].
    intro I. apply S. apply make_names. exact I. }
  assert (F : forall e,
             (result <- mapM (Cargo.resolve_item g) (Cargo.items (cargo self)) ;;
              ret (map (fun kv => (fst kv,
                                   if (1 <? Loadout.count result (fst kv))%Z
                                   then Loadout.count result (fst kv)
                                   else snd kv))
                       (dict_of entity_eqb result))) = inl e ->
             exists i, In i (Cargo.items (cargo self)) /\
                       Cargo.resolve_item g i = inl e).
  { intros e E.
    destruct (mapM (Cargo.resolve_item g) (Cargo.items (cargo self)))
      as [e' | result] eqn:M; simpl in E; [| discriminate].
    inversion E. subst e'. apply mapM_inl in M. exact M. }
  split; [split |].
  - intros [e E]. destruct (F e E) as (i & I & Ei).
    exists i. split; [exact I | apply (R i e Ei)].
  - intros (i & I & N).
    assert (Ei : Cargo.resolve_item g i = inl KeyError).
    { unfold Cargo.resolve_item.
      assert (S := getitem_spec (routines.get_equipment g) (Cargo.item_nickname i)).
      destruct (EntitySet.getitem (routines.get_equipment g) (Cargo.item_nickname i))
        as [e' | x].
      - destruct S as [-> _]. reflexivity.
      - destruct S as [Ix Ex]. contradiction N. rewrite <- Ex.
        apply in_map. apply make_In. exact Ix. }
    destruct (mapM_raises _ _ i KeyError I Ei) as [e' ->]. exists e'. reflexivity.
  - intros e E. destruct (F e E) as (i & _ & Ei). apply (R i e Ei).
Qed.
End LootKeys.

Lemma loot_first_seen_witness :
  map nickname (map fst [(Sample.ammo_01, 2%Z); (Sample.shield_01, 1%Z)])
  = Cargo.first_seen (map Cargo.item_nickname
                          (Cargo.items (cargo Sample.wreck_loadout))).
Proof.
  apply (loot_first_seen Sample.armory Sample.wreck_loadout
                         [(Sample.ammo_01, 2%Z); (Sample.shield_01, 1%Z)]).
  reflexivity.
Defined.

Lemma loot_amounts_witness :
  let names := map Cargo.item_nickname (Cargo.items (cargo Sample.wreck_loadout)) in
  (1 <= Cargo.occurrences names (nickname Sample.ammo_01))%Z /\
  if (1 <? Cargo.occurrences names (nickname Sample.ammo_01))%Z
  then 2%Z = Cargo.occurrences names (nickname Sample.ammo_01)
  else exists i, In i (Cargo.items (cargo Sample.wreck_loadout)) /\
                 Cargo.item_nickname i = nickname Sample.ammo_01 /\
                 2%Z = Cargo.item_amount i.
Proof.
  apply (loot_amounts Sample.armory Sample.wreck_loadout
                      [(Sample.ammo_01, 2%Z); (Sample.shield_01, 1%Z)]
                      Sample.ammo_01 2%Z).
  - reflexivity.
  - left. reflexivity.
Defined.

Example loot_of_unknown :
  snd (Loadout.loot Sample.armory Circular.unknown_loadout) = raise KeyError.
Proof. reflexivity. Qed.

(** ** The rumors of a base, by faction *)

Section RumorGroups.
Variable g : Registry.
Variable lookup : Z -> string.

Lemma set_update_In (s xs : list string) (t : string) :
  In t (Base.set_update s xs) <-> In t s \/ In t xs.
Proof.
  unfold Base.set_update. revert s. induction xs as [| x xs IH]; intro s; simpl.
  - tauto.
  - rewrite IH. destruct (existsb (String.eqb x) s) eqn:E.
    + apply existsb_exists in E. destruct E as (y & Iy & Exy).
      apply String.eqb_eq in Exy. subst y.
      split; [tauto | intros [I | [<- | I]]; tauto].
    + rewrite in_app_iff. simpl. tauto.
Qed.

Lemma texts_update (d : list (Faction * list string)) (f f' : Faction)
      (new : list string) (t : string) :
  In t (Rumors.texts (Base.dict_update d f new) f') <->
  In t (Rumors.texts d f') \/ (nickname f = nickname f' /\ In t new).
Proof.
  unfold Rumors.texts, Base.dict_update.
  assert (K : forall s,
             In t match dict_get entity_eqb (dict_set entity_eqb d f
                                                      (Base.set_update s new)) f' with
                  | Some x => x
                  | None => []
                  end
             <-> (if entity_eqb f f' then In t s \/ In t new
                  else In t match dict_get entity_eqb d f' with
                            | Some x => x
                            | None => []
                            end)).
  { intro s. rewrite dict_get_set.
    destruct (entity_eqb f f'); [apply set_update_In | tauto]. }
  unfold entity_eqb in K.
  destruct (dict_get entity_eqb d f) as [s |] eqn:G; rewrite K;
    destruct (String.eqb_spec (nickname f) (nickname f')) as [E | N].
  - assert (G' : dict_get entity_eqb d f' = Some s).
    { clear - G E. induction d as [| [k v] d IH]; simpl in *; [discriminate |].
      unfold entity_eqb in *. rewrite <- E.
      destruct (String.eqb (nickname k) (nickname f)); [exact G | exact (IH G)]. }
    rewrite G'. tauto.
  - tauto.
  - assert (G' : dict_get entity_eqb d f' = None).
    { clear - G E. induction d as [| [k v] d IH]; simpl in *; [reflexivity |].
      unfold entity_eqb in *. rewrite <- E.
      destruct (String.eqb (nickname k) (nickname f)); [discriminate | exact (IH G)]. }
    rewrite G'. simpl. tauto.
  - tauto.
Qed.

Lemma dict_update_keys (d : list (Faction * list string)) (f : Faction)
      (new : list string) :
  NoDup (map nickname (map fst d)) ->
  NoDup (map nickname (map fst (Base.dict_update d f new))) /\
  forall k, In k (map fst (Base.dict_update d f new)) -> k = f \/ In k (map fst d).
Proof.
  intro N. unfold Base.dict_update.
  destruct (dict_get entity_eqb d f);
    (split; [apply dict_set_keys_NoDup; exact N
            | intros k Ik; exact (dict_set_keys_In _ _ _ _ Ik)]).
Qed.

(** What the loop adds to the dict. *)
Lemma rumors_loop_groups (l : list NPC) :
  forall acc l' d,
    Base.rumors_loop g lookup l acc = (l', inr d) ->
    NoDup (map nickname (map fst acc)) ->
    (forall k, In k (map fst acc) -> In k (routines.get_factions g)) ->
    NoDup (map nickname (map fst d)) /\
    (forall k, In k (map fst d) -> In k (routines.get_factions g)) /\
    forall f t, In f (routines.get_factions g) ->
                (In t (Rumors.texts d f) <->
                 In t (Rumors.texts acc f) \/ Rumors.told lookup l f t).
Proof.
  induction l as [| npc l IH]; intros acc l' d E N K.
  - simpl in E. inversion E. subst d. repeat split; try assumption.
    + tauto.
    + intros [I | (npc & id & [] & _)]. exact I.
  - cbn [Base.rumors_loop] in E.
    destruct (Base.truthy (rumor npc)) eqn:T.
    + assert (S := getitem_spec (routines.get_factions g)
                                (affiliation (Base.wrap npc))).
      destruct (EntitySet.getitem (routines.get_factions g)
                                  (affiliation (Base.wrap npc))) as [e | fa];
        [inversion E |].
      destruct S as [Ifa Efa].
      assert (Ea : affiliation (Base.wrap npc) = affiliation npc)
        by (destruct npc as [n a [| r | rs]]; reflexivity).
      rewrite Ea in Efa. rewrite wrap_ids in E.
      destruct (Base.rumors_loop g lookup l _) as [rest r] eqn:El.
      inversion E. subst r. clear E.
      destruct (dict_update_keys acc fa (map lookup (Base.rumor_ids npc)) N)
        as [N' K'].
      destruct (IH _ _ _ El N') as (Nd & Kd & Td).
      { intros k Ik. destruct (K' k Ik) as [-> | Ik']; [exact Ifa | exact (K k Ik')]. }
      split; [exact Nd | split; [exact Kd |]].
      intros f t If. rewrite (Td f t If), texts_update. split.
      * intros [[I | [En It]] | (n & id & In' & R)].
        -- left. exact I.
        -- right. apply in_map_iff in It. destruct It as (id & <- & Iid).
           exists npc, id. repeat split;
             [left; reflexivity | exact T | congruence | exact Iid].
        -- right. exists n, id. split; [right; exact In' | exact R].
      * intros [I | (n & id & [<- | In'] & Tn & An & Iid & ->)].
        -- left. left. exact I.
        -- left. right. split; [congruence | apply in_map; exact Iid].
        -- right. exists n, id. repeat split; assumption.
    + destruct (Base.rumors_loop g lookup l acc) as [rest r] eqn:El.
      inversion E. subst r. clear E.
      destruct (IH _ _ _ El N K) as (Nd & Kd & Td).
      split; [exact Nd | split; [exact Kd |]].
      intros f t If. rewrite (Td f t If). split.
      * intros [I | (n & id & In' & R)]; [left; exact I |].
        right. exists n, id. split; [right; exact In' | exact R].
      * intros [I | (n & id & [<- | In'] & Tn & R)]; [left; exact I | |].
        -- rewrite T in Tn. discriminate.
        -- right. exists n, id. repeat split; tauto.
Qed.

(** X22: when [rumors()] returns, the dict it returns has one key per
    faction nickname, every key is a loaded faction, and the set under
    a faction holds exactly the texts of the rumors of the NPCs of the
    mission base that are affiliated with it. *)
Theorem rumors_by_faction (b : Base) (m : MBase) (g' : Registry)
        (d : list (Faction * list string)) :
  Base.mbase g b = Some m ->
  Base.rumors g lookup b = (g', inr d) ->
  NoDup (map nickname (map fst d)) /\
  (forall k, In k (map fst d) -> In k (routines.get_factions g)) /\
  forall f t, In f (routines.get_factions g) ->
              (In t (Rumors.texts d f) <-> Rumors.told lookup (npcs m) f t).
Proof.
  intros Em E. unfold Base.rumors in E. rewrite Em in E.
  destruct (Base.rumors_loop g lookup (npcs m) []) as [l' r] eqn:El.
  inversion E. subst r.
  destruct (rumors_loop_groups (npcs m) [] l' d El (NoDup_nil _))
    as (Nd & Kd & Td); [intros k [] |].
  split; [exact Nd | split; [exact Kd |]].
  intros f t If. rewrite (Td f t If). simpl. tauto.
Qed.
End RumorGroups.

Lemma rumors_by_faction_witness :
  let d := [(Sample.li_n_grp, ["The Navy is hiring."%string]);
            (Sample.fc_or_grp, ["The Order does not exist."%string;
                                "The Navy is hiring."%string])] in
  NoDup (map nickname (map fst d)) /\
  (forall k, In k (map fst d) -> In k (routines.get_factions Sample.sirius_missions)) /\
  forall f t, In f (routines.get_factions Sample.sirius_missions) ->
              (In t (Rumors.texts d f) <->
               Rumors.told Sample.rumor_text (npcs Sample.manhattan_mbase) f t).
Proof.
  apply (rumors_by_faction Sample.sirius_missions Sample.rumor_text Sample.manhattan
           Sample.manhattan_mbase
           (Base.set_mbases Sample.sirius
              [("li01_01_base"%string,
                Base.set_npcs Sample.manhattan_mbase
                  [Base.wrap Sample.bartender; Sample.trader; Sample.dealer])])).
  - reflexivity.
  - reflexivity.
Defined.

Section RumorErrors.
Variable g : Registry.
Variable lookup : Z -> string.

(** An NPC with a true rumor field whose affiliation is not the
    nickname of a loaded faction. *)
Let stray (npc : NPC) : Prop :=
  Base.truthy (rumor npc) = true /\
  ~ In (affiliation npc) (map nickname (reg_factions g)).

Lemma wrap_affiliation (npc : NPC) : affiliation (Base.wrap npc) = affiliation npc.
Proof. destruct npc as [n a [| r | rs]]; reflexivity. Qed.

Lemma rumors_loop_raises (l : list NPC) :
  forall acc,
    (forall e, snd (Base.rumors_loop g lookup l acc) = inl e ->
               e = KeyError /\ exists npc, In npc l /\ stray npc) /\
    ((exists npc, In npc l /\ stray npc) ->
     exists e, snd (Base.rumors_loop g lookup l acc) = inl e).
Proof.
  induction l as [| npc l IH]; intro acc.
  - split; [discriminate | intros (npc & [] & _)].
  - cbn [Base.rumors_loop]. destruct (Base.truthy (rumor npc)) eqn:T.
    + assert (S := getitem_spec (routines.get_factions g)
                                (affiliation (Base.wrap npc))).
      rewrite wrap_affiliation in *.
      destruct (EntitySet.getitem (routines.get_factions g) (affiliation npc))
        as [e0 | fa].
      * destruct S as [-> S]. split.
        -- intros e E. inversion E. split; [reflexivity |].
           exists npc. split; [left; reflexivity |]. split; [exact T |].
           intro I. apply S. apply make_names. exact I.
        -- intros _. exists KeyError. reflexivity.
      * destruct S as [Ifa Efa].
        destruct (IH (Base.dict_update acc fa
                        (map lookup (Base.rumor_ids (Base.wrap npc))))) as [F B].
        destruct (Base.rumors_loop g lookup l _) as [rest r]. cbn [snd] in *.
        split.
        -- intros e E. destruct (F e E) as (Ee & n & In' & Sn).
           split; [exact Ee |]. exists n. split; [right; exact In' | exact Sn].
        -- intros (n & [<- | In'] & Sn).
           ++ destruct Sn as [_ Sn]. contradiction Sn. rewrite <- Efa.
              apply in_map. apply make_In. exact Ifa.
           ++ apply B. exists n. split; assumption.
    + destruct (IH acc) as [F B].
      destruct (Base.rumors_loop g lookup l acc) as [rest r]. cbn [snd] in *.
      split.
      * intros e E. destruct (F e E) as (Ee & n & In' & Sn).
        split; [exact Ee |]. exists n. split; [right; exact In' | exact Sn].
      * intros (n & [<- | In'] & Sn).
        -- destruct Sn as [Sn _]. rewrite T in Sn. discriminate.
        -- apply B. exists n. split; assumption.
Qed.

(** X23: [rumors()] raises exactly when an NPC of the mission base has
    a rumor and an affiliation that is not the nickname of a loaded
    faction, and what it raises is [KeyError]; a base without a
    mission base has no rumors and nothing is raised. *)
Theorem rumors_raises (b : Base) :
  match Base.mbase g b with
  | Some m =>
      ((exists e, snd (Base.rumors g lookup b) = inl e) <->
       exists npc, In npc (npcs m) /\ Base.truthy (rumor npc) = true /\
                   ~ In (affiliation npc) (map nickname (reg_factions g))) /\
      forall e, snd (Base.rumors g lookup b) = inl e -> e = KeyError
  | None => Base.rumors g lookup b = (g, ret [])
  end.
Proof.
  unfold Base.rumors. destruct (Base.mbase g b) as [m |]; [| reflexivity].
  destruct (rumors_loop_raises (npcs m) []) as [F B].
  destruct (Base.rumors_loop g lookup (npcs m) []) as [l' r]. cbn [snd] in *.
  split; [split |].
  - intros [e E]. destruct (F e E) as (_ & npc & I & S). exists npc. split; assumption.
  - intros (npc & I & S). apply B. exists npc. split; assumption.
  - intros e E. apply (F e E).
Qed.
End RumorErrors.

(** ** The rumors of a faction *)

Section FactionRumors.
Variable g : Registry.
Variable lookup : Z -> string.

Lemma wrapped_trans (r r' r'' : rumor_field) :
  wrapped r r' -> wrapped r' r'' -> wrapped r r''.
Proof.
  intros [-> | (t & -> & ->)] [-> | (t' & E & ->)].
  - left. reflexivity.
  - right. exists t'. split; [exact E | reflexivity].
  - right. exists t. split; reflexivity.
  - discriminate.
Qed.

Lemma npc_wrapped_trans (n n' n'' : NPC) :
  npc_wrapped n n' -> npc_wrapped n' n'' -> npc_wrapped n n''.
Proof.
  intros (A1 & A2 & A3) (B1 & B2 & B3). repeat split; try congruence.
  exact (wrapped_trans _ _ _ A3 B3).
Qed.

Lemma Forall2_trans {A : Type} (R : A -> A -> Prop) (l l' l'' : list A) :
  (forall a b c, R a b -> R b c -> R a c) ->
  Forall2 R l l' -> Forall2 R l' l'' -> Forall2 R l l''.
Proof.
  intros Tr F. revert l''. induction F as [| a b l l' Rab _ IH]; intros l'' F'.
  - inversion F'. constructor.
  - inversion F' as [| ? c ? l0 Rbc F0]; subst. constructor; [| apply IH; exact F0].
    exact (Tr _ _ _ Rab Rbc).
Qed.

Lemma mbase_wrapped_trans (m m' m'' : string * MBase) :
  mbase_wrapped m m' -> mbase_wrapped m' m'' -> mbase_wrapped m m''.
Proof.
  intros (A1 & A2 & A3 & A4) (B1 & B2 & B3 & B4). repeat split; try congruence.
  exact (Forall2_trans _ _ _ _ npc_wrapped_trans A4 B4).
Qed.

Lemma npc_wrapped_same (n n' : NPC) :
  npc_wrapped n n' ->
  Base.truthy (rumor n') = Base.truthy (rumor n) /\
  affiliation (Base.wrap n') = affiliation (Base.wrap n) /\
  Base.rumor_ids (Base.wrap n') = Base.rumor_ids (Base.wrap n).
Proof.
  intros (_ & A & W). rewrite !wrap_affiliation, !wrap_ids.
  split; [| split; [exact A |]].
  - destruct W as [-> | (t & -> & ->)]; reflexivity.
  - unfold Base.rumor_ids. destruct W as [-> | (t & -> & ->)]; reflexivity.
Qed.

(** Wrapped NPC records give the same rumors. *)
Lemma rumors_loop_same (l l' : list NPC) :
  Forall2 npc_wrapped l l' ->
  forall acc, snd (Base.rumors_loop g lookup l' acc)
              = snd (Base.rumors_loop g lookup l acc).
Proof.
  induction 1 as [| n n' l l' W _ IH]; intro acc; [reflexivity |].
  destruct (npc_wrapped_same n n' W) as (T & A & I).
  cbn [Base.rumors_loop]. rewrite T, A, I.
  destruct (Base.truthy (rumor n)).
  - destruct (EntitySet.getitem (routines.get_factions g) (affiliation (Base.wrap n)))
      as [e | f]; [reflexivity |].
    specialize (IH (Base.dict_update acc f (map lookup (Base.rumor_ids (Base.wrap n))))).
    destruct (Base.rumors_loop g lookup l' _) as [r1 x1].
    destruct (Base.rumors_loop g lookup l _) as [r2 x2]. exact IH.
  - specialize (IH acc).
    destruct (Base.rumors_loop g lookup l' acc) as [r1 x1].
    destruct (Base.rumors_loop g lookup l acc) as [r2 x2]. exact IH.
Qed.

Lemma dict_get_wrapped (ms ms' : list (string * MBase)) (k : string) :
  Forall2 mbase_wrapped ms ms' ->
  match dict_get String.eqb ms k, dict_get String.eqb ms' k with
  | Some m, Some m' => Forall2 npc_wrapped (npcs m) (npcs m')
  | None, None => True
  | _, _ => False
  end.
Proof.
  induction 1 as [| [k1 m1] [k2 m2] ms ms' W _ IH]; simpl; [exact I |].
  destruct W as (E & _ & _ & W). simpl in E, W. subst k2.
  destruct (String.eqb k1 k); [exact W | exact IH].
Qed.

(** On loaded data whose NPC records are wrapped, [Base.rumors]
    returns the same and leaves wrapped records. *)
Lemma rumors_stable (ms : list (string * MBase)) (b : Base) :
  Forall2 mbase_wrapped (reg_mbases g) ms ->
  snd (Base.rumors (Base.set_mbases g ms) lookup b) = snd (Base.rumors g lookup b) /\
  exists ms', fst (Base.rumors (Base.set_mbases g ms) lookup b) = Base.set_mbases g ms' /\
              Forall2 mbase_wrapped (reg_mbases g) ms'.
Proof.
  intro W. assert (D := dict_get_wrapped _ _ (nickname b) W).
  unfold Base.rumors, Base.mbase, missions.get_mbases. cbn [reg_mbases Base.set_mbases].
  destruct (dict_get String.eqb (reg_mbases g) (nickname b)) as [m |];
    destruct (dict_get String.eqb ms (nickname b)) as [m' |] eqn:G;
    try contradiction.
  - rewrite rumors_loop_factions.
    assert (S := rumors_loop_same _ _ D []).
    assert (L := rumors_loop_wrapped g lookup (npcs m') []).
    destruct (Base.rumors_loop g lookup (npcs m') []) as [l1 r1].
    destruct (Base.rumors_loop g lookup (npcs m) []) as [l2 r2].
    cbn [fst snd] in *. split; [exact S |].
    eexists. split; [reflexivity |].
    apply (Forall2_trans _ _ _ _ mbase_wrapped_trans W).
    apply dict_set_related with (v := m').
    + intro x. repeat split. apply Forall2_refl, npc_wrapped_refl.
    + intro k'. repeat split. exact L.
    + exact G.
  - split; [reflexivity |]. exists ms. split; [reflexivity | exact W].
Qed.

Lemma dict_set_str_In {V : Type} (d : list (string * V)) (k0 k : string) (v0 v : V) :
  In (k, v) (dict_set String.eqb d k0 v0) -> In (k, v) d \/ (k = k0 /\ v = v0).
Proof.
  induction d as [| [k' v'] d IH]; simpl.
  - intros [E | []]. inversion E. right. split; reflexivity.
  - destruct (String.eqb_spec k' k0) as [-> | _]; simpl.
    + intros [E | I]; [inversion E; right; split; reflexivity | left; right; exact I].
    + intros [E | I]; [left; left; exact E |].
      destruct (IH I) as [I' | R]; [left; right; exact I' | right; exact R].
Qed.

(** What an entry of the faction's dict comes from. *)
Let listed (self : Faction) (bases : list Base) (n : string) (texts : list string) : Prop :=
  exists b d, In b bases /\ nickname b = n /\
              Base.has_solar g b = inr true /\
              snd (Base.rumors g lookup b) = inr d /\
              dict_get entity_eqb d self = Some texts.

Lemma faction_rumors_loop (self : Faction) (bases : list Base) :
  forall ms result gk d,
    Forall2 mbase_wrapped (reg_mbases g) ms ->
    Universe.rumors_loop lookup self bases (Base.set_mbases g ms) result = (gk, inr d) ->
    forall n texts, In (n, texts) d ->
                    In (n, texts) result \/ listed self bases n texts.
Proof.
  induction bases as [| b bases IH]; intros ms result gk d W E n texts I.
  - simpl in E. inversion E. subst d. left. exact I.
  - assert (Later : forall n texts, listed self bases n texts ->
                                    listed self (b :: bases) n texts).
    { intros n0 t0 (b0 & d0 & I0 & R). exists b0, d0. split; [right; exact I0 | exact R]. }
    cbn [Universe.rumors_loop] in E.
    change (Base.has_solar (Base.set_mbases g ms) b) with (Base.has_solar g b) in E.
    destruct (Base.has_solar g b) as [e | [|]] eqn:Hs; [discriminate | |].
    + destruct (rumors_stable ms b W) as (S1 & ms1 & F1 & W1).
      destruct (Base.rumors (Base.set_mbases g ms) lookup b) as [g1 r1].
      cbn [fst snd] in S1, F1. subst g1.
      destruct r1 as [e | d1]; [discriminate |].
      destruct (dict_get entity_eqb d1 self) as [t1 |] eqn:G1.
      * destruct (rumors_stable ms1 b W1) as (S2 & ms2 & F2 & W2).
        destruct (Base.rumors (Base.set_mbases g ms1) lookup b) as [g2 r2].
        cbn [fst snd] in S2, F2. subst g2. rewrite <- S1 in S2. subst r2.
        unfold dict_getitem in E. rewrite G1 in E. simpl in E.
        destruct (IH _ _ _ _ W2 E n texts I) as [I' | L]; [| right; exact (Later _ _ L)].
        destruct (dict_set_str_In _ _ _ _ _ I') as [I'' | [-> ->]]; [left; exact I'' |].
        right. exists b, d1. repeat split; [left; reflexivity | exact Hs | | exact G1].
        symmetry. exact S1.
      * destruct (IH _ _ _ _ W1 E n texts I) as [I' | L];
          [left; exact I' | right; exact (Later _ _ L)].
    + destruct (IH _ _ _ _ W E n texts I) as [I' | L];
        [left; exact I' | right; exact (Later _ _ L)].
Qed.

(** X24: every entry of the dict that [Faction.rumors] returns is for
    a loaded base that has a solar, under the base's nickname, and
    holds what the [rumors()] of that base has for the faction; a
    base without a solar is never listed. *)
Theorem faction_rumors_listed (self : Faction) (d : list (string * list string))
        (n : string) (texts : list string) :
  snd (Universe.rumors g lookup self) = inr d -> In (n, texts) d ->
  exists b rumors,
    In b (routines.get_bases g) /\ nickname b = n /\
    Base.has_solar g b = inr true /\
    snd (Base.rumors g lookup b) = inr rumors /\
    dict_get entity_eqb rumors self = Some texts.
Proof.
  unfold Universe.rumors. intros E I.
  destruct (Universe.rumors_loop lookup self (routines.get_bases g) g []) as [gk r] eqn:L.
  cbn [snd] in E. subst r.
  assert (W : Forall2 mbase_wrapped (reg_mbases g) (reg_mbases g)).
  { apply Forall2_refl. intro x. repeat split. apply Forall2_refl, npc_wrapped_refl. }
  assert (G : Base.set_mbases g (reg_mbases g) = g) by (destruct g; reflexivity).
  rewrite <- G in L at 2.
  destruct (faction_rumors_loop self _ _ _ _ _ W L n texts I) as [[] | R]. exact R.
Qed.
End FactionRumors.

Lemma faction_rumors_listed_witness :
  exists b rumors,
    In b (routines.get_bases Sample.sirius_missions) /\
    nickname b = "li01_01_base"%string /\
    Base.has_solar Sample.sirius_missions b = inr true /\
    snd (Base.rumors Sample.sirius_missions Sample.rumor_text b) = inr rumors /\
    dict_get entity_eqb rumors Sample.li_n_grp = Some ["The Navy is hiring."%string].
Proof.
  apply (faction_rumors_listed Sample.sirius_missions Sample.rumor_text Sample.li_n_grp
           [("li01_01_base"%string, ["The Navy is hiring."%string])]).
  - reflexivity.
  - left. reflexivity.
Defined.

(** ** Where an owner and a connection come from *)

Section Sources.
Variable g : Registry.

Lemma getitem_loaded {T : Type} `{Entity T} (l : list T) (n : string) (x : T) :
  EntitySet.getitem (EntitySet.make l) n = inr x <->
  In x (EntitySet.make l) /\ nickname x = n.
Proof.
  unfold EntitySet.getitem. split.
  - destruct (EntitySet.get (EntitySet.make l) n) as [y |] eqn:G; [| discriminate].
    intro E. inversion E. subst y. apply get_Some. exact G.
  - intros [I <-]. rewrite (get_In _ x (make_NoDup l) I). reflexivity.
Qed.

(** X25: the owner of a base that has a solar is the loaded faction
    named by the solar's [reputation], whatever the mission data say;
    the owner of a base without a solar but with a mission base is the
    loaded faction named by its [local_faction]. *)
Theorem owner_sources (b : Base) (s : option BaseSolar) (f : Faction) :
  Base.solar g b = inr s ->
  (Base.owner g b = inr (Some f) <->
   In f (routines.get_factions g) /\
   match s, Base.mbase g b with
   | Some bs, _ => nickname f = reputation bs
   | None, Some m => nickname f = local_faction m
   | None, None => False
   end).
Proof.
  intro S. unfold Base.owner, Base.has_solar. rewrite S. simpl.
  assert (K : forall n,
             (f0 <- EntitySet.getitem (routines.get_factions g) n ;; ret (Some f0))
             = inr (Some f) <->
             In f (routines.get_factions g) /\ nickname f = n).
  { intro n. assert (L := getitem_loaded (reg_factions g) n f).
    change (EntitySet.make (reg_factions g)) with (routines.get_factions g) in L.
    rewrite <- L.
    destruct (EntitySet.getitem (routines.get_factions g) n) as [e | x]; simpl.
    - split; discriminate.
    - split; intro E; inversion E; reflexivity. }
  destruct s as [bs |].
  - simpl. unfold BaseSolar.owner. apply K.
  - destruct (Base.mbase g b) as [m |]; [apply K |].
    split; [discriminate | tauto].
Qed.

Lemma destination_resolved (j : Jump) (s : System) :
  Jump.destination_system g j = inr s ->
  Solars.destination j = Some (nickname s) /\ In s (reg_systems g).
Proof.
  unfold Jump.destination_system, Solars.destination.
  assert (K : forall d, EntitySet.getitem (routines.get_systems g) d = inr s ->
                        Some d = Some (nickname s) /\ In s (reg_systems g)).
  { intros d E. apply (getitem_loaded (reg_systems g) d s) in E.
    destruct E as [I <-]. split; [reflexivity | apply make_In; exact I]. }
  destruct (goto j) as [[[d x] y] | l]; [apply K |].
  destruct (rev l) as [| [[d x] y] r]; [discriminate | apply K].
Qed.

(** X26: every entry of the mapping that [connections] returns is a
    jump of the system's contents with the loaded system that its
    [goto] names, and no jump has two entries. *)
Theorem connections_sources (self : System) (m : list (Jump * System)) :
  System.connections g self = inr m ->
  NoDup (map nickname (map fst m)) /\
  forall j s, In (j, s) m ->
              In (SJump j) (reg_contents g (nickname self)) /\
              Solars.destination j = Some (nickname s) /\
              In s (reg_systems g).
Proof.
  unfold System.connections. intro E.
  apply bind_ret_inv in E. destruct E as (pairs & Ep & E). inversion E. subst m.
  clear E. apply mapM_inr in Ep.
  assert (F : map fst pairs = System.jumps g self /\
              forall j s, In (j, s) pairs -> Jump.destination_system g j = inr s).
  { induction Ep as [| j p js ps Ej _ IH].
    - split; [reflexivity |]. intros j s F0. destruct F0.
    - destruct IH as [IH1 IH2].
      destruct (Jump.destination_system g j) as [? | d] eqn:Ed;
        simpl in Ej; [discriminate |].
      inversion Ej. subst p. simpl. split; [rewrite IH1; reflexivity |].
      intros j' s' [I | I]; [inversion I; subst; exact Ed | exact (IH2 _ _ I)]. }
  destruct F as [F1 F2].
  assert (N : NoDup (map nickname (map fst pairs)))
    by (rewrite F1; apply jumps_NoDup).
  rewrite (dict_of_distinct pairs N). split; [exact N |].
  intros j s I. split; [| exact (destination_resolved j s (F2 j s I))].
  assert (Ij : In j (System.jumps g self))
    by (rewrite <- F1; apply (in_map fst) in I; exact I).
  unfold System.jumps in Ij. apply make_In in Ij. apply in_flat_map in Ij.
  destruct Ij as (c & Ic & Ij). unfold System.contents, routines.get_system_contents in Ic.
  apply make_In in Ic.
  destruct c as [j0 | | | |]; simpl in Ij; try contradiction.
  destruct Ij as [-> | []]. exact Ic.
Qed.
End Sources.

Lemma owner_sources_witness :
  Base.owner Sample.sirius Sample.manhattan = inr (Some Sample.li_n_grp) <->
  In Sample.li_n_grp (routines.get_factions Sample.sirius) /\
  match Some Sample.manhattan_solar, Base.mbase Sample.sirius Sample.manhattan with
  | Some bs, _ => nickname Sample.li_n_grp = reputation bs
  | None, Some m => nickname Sample.li_n_grp = local_faction m
  | None, None => False
  end.
Proof.
  apply (owner_sources Sample.sirius Sample.manhattan (Some Sample.manhattan_solar)
                       Sample.li_n_grp).
  reflexivity.
Defined.

Lemma connections_sources_witness :
  NoDup (map nickname (map fst [(Circular.hole_to_li01, Sample.li01)])) /\
  forall j s, In (j, s) [(Circular.hole_to_li01, Sample.li01)] ->
              In (SJump j) (reg_contents Circular.joined (nickname Circular.li02)) /\
              Solars.destination j = Some (nickname s) /\
              In s (reg_systems Circular.joined).
Proof.
  apply (connections_sources Circular.joined Circular.li02
                             [(Circular.hole_to_li01, Sample.li01)]).
  reflexivity.
Defined.
